(** * Artistly: the mock query resolver and the client-side filter engine

  A shallow embedding of [src/lib/graphql.ts] (query resolver),
  of the [useOptimizedFilters] hook (filter engine and its facets) and of
  [transformFormDataToArtist] from [src/lib/types.ts], with the properties
  the specification states about them.

  Modelling conventions.
  - A JavaScript string is a [string]: a sequence of code units, here the
    code units U+0000..U+00FF (one [ascii] each).  Comparison of strings is
    comparison of code units, as in JavaScript.
  - A JavaScript number that holds a price is a [Z]; the source only
    compares such numbers and takes their minimum and maximum.
  - An exception is a value of type [thrown]; code that may throw returns
    a [result].
  - React's scheduling ([useMemo], [useTransition], [useDeferredValue]) and
    the simulated latency of the resolver are not part of the model: the
    memoised bodies are modelled as functions of their dependencies. *)

From Stdlib Require Import ZArith Ascii DecimalString DecimalFacts DecimalZ.
From stdpp Require Import base tactics option list strings gmap sorting.

Local Open Scope Z_scope.

(** ** JavaScript strings *)

Module JsString.

(** [WhiteSpace] and [LineTerminator] code units below U+0100: TAB, LF, VT,
    FF, CR, SPACE and NO-BREAK SPACE.  This is the class [\s] of a regular
    expression and the class removed by [String.prototype.trim]. *)
Definition is_white_space (c : ascii) : bool :=
  match N_of_ascii c with
  | 9%N | 10%N | 11%N | 12%N | 13%N | 32%N | 160%N => true
  | _ => false
  end.

(** [LineTerminator] code units below U+0100: LF and CR.  The pattern
    character [.] matches every code unit but these. *)
Definition is_line_terminator (c : ascii) : bool :=
  match N_of_ascii c with
  | 10%N | 13%N => true
  | _ => false
  end.

Definition LF : ascii := ascii_of_N 10.
Definition open_brace : ascii := "{"%char.
Definition close_brace : ascii := "}"%char.

(** [s.startsWith(p)] *)
Fixpoint startsWith (s p : string) : bool :=
  match p, s with
  | EmptyString, _ => true
  | String _ _, EmptyString => false
  | String a p', String b s' => if Ascii.eqb a b then startsWith s' p' else false
  end.

(** [s.includes(needle)] *)
Fixpoint includes (s needle : string) : bool :=
  if startsWith s needle then true
  else match s with
       | EmptyString => false
       | String _ s' => includes s' needle
       end.

(** Removes the leading white space. *)
Fixpoint trimStart (s : string) : string :=
  match s with
  | EmptyString => EmptyString
  | String c s' => if is_white_space c then trimStart s' else s
  end.

(** Removes the trailing white space. *)
Fixpoint trimEnd (s : string) : string :=
  match s with
  | EmptyString => EmptyString
  | String c s' =>
      match trimEnd s' with
      | EmptyString => if is_white_space c then EmptyString else String c EmptyString
      | t => String c t
      end
  end.

(** [s.trim()] *)
Definition trim (s : string) : string := trimEnd (trimStart s).

(** [s.split('\n')], with the line being read as an accumulator. *)
Fixpoint split_lines_go (cur : string) (s : string) : list string :=
  match s with
  | EmptyString => [String.rev cur]
  | String c s' =>
      if Ascii.eqb c LF then String.rev cur :: split_lines_go EmptyString s'
      else split_lines_go (String c cur) s'
  end.

Definition split_lines (s : string) : list string := split_lines_go EmptyString s.

(** [s.toLowerCase()] on the code units below U+0100: the letters A-Z and
    the letters U+00C0..U+00DE but the multiplication sign U+00D7 are moved
    up by 32; every other code unit is its own lower case. *)
Definition lower_code_unit (c : ascii) : ascii :=
  let n := N_of_ascii c in
  if ((65 <=? n) && (n <=? 90))%N then ascii_of_N (n + 32)
  else if ((192 <=? n) && (n <=? 222) && negb (n =? 215))%N then ascii_of_N (n + 32)
  else c.

Fixpoint toLowerCase (s : string) : string :=
  match s with
  | EmptyString => EmptyString
  | String c s' => String (lower_code_unit c) (toLowerCase s')
  end.

(** [needle] occurs in [s]: the relation that [includes] decides. *)
Definition Substring (needle s : string) : Prop :=
  ∃ pre post : string, s = pre +:+ needle +:+ post.

End JsString.

(** ** The data model and the onboarding transformation ([src/lib/types.ts]) *)

Module Types.

Record PriceRange := { min : Z; max : Z }.

Record Artist := {
  id : string;
  name : string;
  categories : list string;
  location : string;
  priceRange : PriceRange;
  bio : string;
  imageUrl : string;
  languages : list string;
}.

(** The form data of the onboarding page.  Its fields live in a module of
    their own because they share their names with the fields of [Artist]. *)
Module Form.
Record ArtistFormData {File : Type} := {
  name : string;
  bio : string;
  categories : list string;
  languages : list string;
  feeRange : string;
  location : string;
  profileImage : option File;
}.
Global Arguments ArtistFormData : clear implicits.
End Form.

(** The decimal digits of an integer, as a template literal prints them. *)
Definition Number_toString (n : Z) : string :=
  DecimalString.NilZero.string_of_int (Z.to_int n).

Definition parseFeeRange (feeRange : string) : PriceRange :=
  if (feeRange =? "0-500")%string then {| min := 0; max := 500 |}
  else if (feeRange =? "500-1000")%string then {| min := 500; max := 1000 |}
  else if (feeRange =? "1000-2500")%string then {| min := 1000; max := 2500 |}
  else if (feeRange =? "2500-5000")%string then {| min := 2500; max := 5000 |}
  else if (feeRange =? "5000+")%string then {| min := 5000; max := 10000 |}
  else {| min := 0; max := 1000 |}.

Section Transform.
(** The environment of the browser: the type of uploaded files, the
    result of [URL.createObjectURL] on a file, and the value that
    [Date.now()] returns at the call. *)
Context {File : Type}.
Variable createObjectURL : File → string.
Variable now : Z.

Definition transformFormDataToArtist (formData : Form.ArtistFormData File) : Artist :=
  {| id := "temp-" +:+ Number_toString now;
     name := Form.name formData;
     categories := Form.categories formData;
     location := Form.location formData;
     priceRange := parseFeeRange (Form.feeRange formData);
     bio := Form.bio formData;
     imageUrl :=
       match Form.profileImage formData with
       | Some file => createObjectURL file
       | None => "https://placehold.co/400x400.png"
       end;
     languages := Form.languages formData |}.
End Transform.

End Types.

(** ** JavaScript values, objects and exceptions *)

Module Js.

(** The values that the resolver handles: the values of the fields of an
    artist, the values of the entries of [variables], and the members that
    every object inherits from [Object.prototype]. *)
Inductive value :=
| VUndefined
| VNull
| VBoolean (b : bool)
| VNumber (n : Z)
| VString (s : string)
| VStrings (l : list string)
| VPriceRange (p : Types.PriceRange)
| VInherited (member : string).

(** An object whose prototype is [Object.prototype]: its own properties in
    the order of their insertion.  No object of the model has an own
    property of an integer name or of the name [__proto__]. *)
Definition object := list (string * value).

(** The names of the properties of [Object.prototype]. *)
Definition Object_prototype : list string :=
  [ "constructor"; "hasOwnProperty"; "isPrototypeOf"; "propertyIsEnumerable";
    "toLocaleString"; "toString"; "valueOf"; "__proto__";
    "__defineGetter__"; "__defineSetter__"; "__lookupGetter__"; "__lookupSetter__" ].

Fixpoint mem (x : string) (l : list string) : bool :=
  match l with
  | [] => false
  | y :: l' => if (x =? y)%string then true else mem x l'
  end.

Fixpoint own (o : object) (key : string) : option value :=
  match o with
  | [] => None
  | (k, v) :: o' => if (key =? k)%string then Some v else own o' key
  end.

(** [key in o] *)
Definition has (o : object) (key : string) : bool :=
  match own o key with
  | Some _ => true
  | None => mem key Object_prototype
  end.

(** [o[key]] *)
Definition get (o : object) (key : string) : value :=
  match own o key with
  | Some v => v
  | None => if mem key Object_prototype then VInherited key else VUndefined
  end.

Fixpoint define (o : object) (key : string) (v : value) : object :=
  match o with
  | [] => [(key, v)]
  | (k, w) :: o' =>
      if (key =? k)%string then (k, v) :: o' else (k, w) :: define o' key v
  end.

(** [o[key] = v].  The name [__proto__] is an accessor of
    [Object.prototype]: the assignment calls its setter, which makes no own
    property; the resolver only assigns to it the value that it read under
    the same name, the prototype that the object already has. *)
Definition set (o : object) (key : string) (v : value) : object :=
  if (key =? "__proto__")%string then o else define o key v.

(** The names to which an assignment gives an own property. *)
Definition assignable (key : string) : bool := negb (key =? "__proto__")%string.

(** What a [throw] carries.  [Error] and [TypeError] are instances of
    [Error]; [NotAnError] is any other value. *)
Inductive thrown :=
| Error (message : string)
| TypeError (message : string)
| NotAnError (v : value).

(** [e instanceof Error] *)
Definition is_Error (e : thrown) : Prop :=
  match e with
  | Error _ | TypeError _ => True
  | NotAnError _ => False
  end.

Inductive result (A : Type) :=
| Ok (a : A)
| Throw (e : thrown).
Global Arguments Ok {A} a.
Global Arguments Throw {A} e.

Global Instance result_ret : MRet result := λ A a, Ok a.
Global Instance result_bind : MBind result := λ A B f m,
  match m with
  | Ok a => f a
  | Throw e => Throw e
  end.

(** [l.filter(f)] for a callback that may throw. *)
Fixpoint filterM {A : Type} (f : A → result bool) (l : list A) : result (list A) :=
  match l with
  | [] => Ok []
  | x :: l' =>
      b ← f x;
      kept ← filterM f l';
      Ok (if b : bool then x :: kept else kept)
  end.

(** [s.toLowerCase()] for the receiver [s] of any value, with the message
    that V8 gives to the [TypeError]. *)
Definition call_toLowerCase (receiver : string) (s : value) : result string :=
  match s with
  | VString t => Ok (JsString.toLowerCase t)
  | VUndefined =>
      Throw (TypeError "Cannot read properties of undefined (reading 'toLowerCase')")
  | VNull =>
      Throw (TypeError "Cannot read properties of null (reading 'toLowerCase')")
  | _ => Throw (TypeError (receiver +:+ ".toLowerCase is not a function"))
  end.

(** [x === v] for a string [x]. *)
Definition strict_equal (x : string) (v : value) : bool :=
  match v with
  | VString y => (x =? y)%string
  | _ => false
  end.

(** [l.includes(v)] for an array of strings. *)
Fixpoint Array_includes (l : list string) (v : value) : bool :=
  match l with
  | [] => false
  | x :: l' => if strict_equal x v then true else Array_includes l' v
  end.

End Js.

(** ** The query resolver ([src/lib/graphql.ts]) *)

Module GraphQL.
Import JsString Js.

Record GraphQLQuery := {
  query : string;
  variables : option (gmap string value);
}.

Record ErrorEntry := { message : string }.

(** The field [data] of a response: a list of projected records, one
    projected record, or [null]. *)
Inductive payload :=
| PList (l : list object)
| PObject (o : object)
| PNull.

Record GraphQLResponse := {
  data : payload;
  errors : option (list ErrorEntry);
}.

(** *** [parseQuery] *)

(** The text before the first closing brace of [s]; [None] when [s] has no
    closing brace. *)
Fixpoint until_close (s : string) : option string :=
  match s with
  | EmptyString => None
  | String c s' =>
      if Ascii.eqb c close_brace then Some EmptyString
      else String c <$> until_close s'
  end.

(** [query.match(/\{([^}]+)\}/)]: the capture group of the leftmost match.
    The match starts at the first opening brace that is followed by one or
    more code units other than a closing brace and then a closing brace. *)
Fixpoint fieldMatch (s : string) : option string :=
  match s with
  | EmptyString => None
  | String c s' =>
      if Ascii.eqb c open_brace then
        match until_close s' with
        | Some (String d t) => Some (String d t)
        | _ => fieldMatch s'
        end
      else fieldMatch s'
  end.

Fixpoint no_line_terminator (s : string) : bool :=
  match s with
  | EmptyString => true
  | String c s' => negb (is_line_terminator c) && no_line_terminator s'
  end.

(** [/\s*\{.*$/] matches at the start of [s]: white space, an opening
    brace, and no line terminator up to the end of the input. *)
Definition brace_tail (s : string) : bool :=
  match trimStart s with
  | String c r => Ascii.eqb c open_brace && no_line_terminator r
  | EmptyString => false
  end.

(** [line.replace(/\s*\{.*$/, '')]: the leftmost match is removed, and it
    reaches the end of the line. *)
Fixpoint strip_brace_tail (s : string) : string :=
  if brace_tail s then EmptyString
  else match s with
       | EmptyString => EmptyString
       | String c s' => String c (strip_brace_tail s')
       end.

(** The callback [line => line && !line.startsWith('#')]. *)
Definition is_field_line (line : string) : bool :=
  match line with
  | EmptyString => false
  | _ => negb (startsWith line "#")
  end.

Definition parseQuery (query : string) : list string :=
  match fieldMatch query with
  | None => []
  | Some body =>
      map (λ line, trim (strip_brace_tail line))
        (List.filter is_field_line (map trim (split_lines body)))
  end.

(** *** The resolvers *)

(** What a resolver returns: an array of records, a record, or
    [undefined]. *)
Inductive resolved :=
| Records (l : list Types.Artist)
| OneRecord (a : Types.Artist)
| Undefined.

(** [args.key] *)
Definition arg (args : gmap string value) (key : string) : value :=
  default VUndefined (args !! key).

(** The record set [artists] of [src/lib/data.ts] is the parameter [data]
    of every resolver. *)
Module resolvers.
Definition artists (data : list Types.Artist) (args : gmap string value)
  : result resolved :=
  Ok (Records data).

Definition artist (data : list Types.Artist) (args : gmap string value)
  : result resolved :=
  Ok (match List.find (λ a, strict_equal (Types.id a) (arg args "id")) data with
      | Some a => OneRecord a
      | None => Undefined
      end).

Definition artistsByCategory (data : list Types.Artist) (args : gmap string value)
  : result resolved :=
  Ok (Records (List.filter
                 (λ a, Array_includes (Types.categories a) (arg args "category"))
                 data)).

Definition artistsByLocation (data : list Types.Artist) (args : gmap string value)
  : result resolved :=
  kept ← filterM (λ a,
             let haystack := toLowerCase (Types.location a) in
             needle ← call_toLowerCase "args.location" (arg args "location");
             Ok (includes haystack needle))
           data;
  Ok (Records kept).
End resolvers.

(** [resolvers[operation]] on the own properties of [resolvers];
    [operation_of] yields no other name. *)
Definition resolvers_lookup (operation : string)
  : option (list Types.Artist → gmap string value → result resolved) :=
  if (operation =? "artists")%string then Some resolvers.artists
  else if (operation =? "artist")%string then Some resolvers.artist
  else if (operation =? "artistsByCategory")%string then Some resolvers.artistsByCategory
  else if (operation =? "artistsByLocation")%string then Some resolvers.artistsByLocation
  else None.

(** *** [graphqlRequest] *)

(** The operation that the text of the query selects. *)
Definition operation_of (queryString : string) : string :=
  let operation := "artists" in
  if includes queryString "artist(" then "artist"
  else if includes queryString "artistsByCategory" then "artistsByCategory"
  else if includes queryString "artistsByLocation" then "artistsByLocation"
  else operation.

(** The record of an artist as an object. *)
Definition artist_object (a : Types.Artist) : object :=
  [ ("id", VString (Types.id a));
    ("name", VString (Types.name a));
    ("categories", VStrings (Types.categories a));
    ("location", VString (Types.location a));
    ("priceRange", VPriceRange (Types.priceRange a));
    ("bio", VString (Types.bio a));
    ("imageUrl", VString (Types.imageUrl a));
    ("languages", VStrings (Types.languages a)) ].

(** The callback [field => { if (field in artist) filtered[field] =
    artist[field] }], with the object [filtered] that it updates. *)
Definition copy_field (artist : object) (filtered : object) (field : string)
  : object :=
  if has artist field then set filtered field (get artist field) else filtered.

(** The loop [fields.forEach(...)] on an empty [filtered]. *)
Definition project (fields : list string) (artist : object) : object :=
  fold_left (copy_field artist) fields [].

(** The body of the [try] block. *)
Definition try_block (artists : list Types.Artist) (q : GraphQLQuery)
  : result GraphQLResponse :=
  let queryString := query q in
  let variables := default ∅ (variables q) in
  let fields := parseQuery queryString in
  let operation := operation_of queryString in
  resolver ← match resolvers_lookup operation with
             | Some resolver => Ok resolver
             | None => Throw (Error ("Unknown operation: " +:+ operation))
             end;
  data ← resolver artists variables;
  match data with
  | Records l =>
      Ok {| data := PList (map (λ artist, project fields (artist_object artist)) l);
            errors := None |}
  | OneRecord a =>
      Ok {| data := PObject (project fields (artist_object a)); errors := None |}
  | Undefined => Ok {| data := PNull; errors := None |}
  end.

(** The [catch] clause: [error instanceof Error ? error.message :
    'Unknown error']. *)
Definition catch_message (error : thrown) : string :=
  match error with
  | Error m | TypeError m => m
  | NotAnError _ => "Unknown error"
  end.

Definition graphqlRequest (artists : list Types.Artist) (q : GraphQLQuery)
  : GraphQLResponse :=
  match try_block artists q with
  | Ok response => response
  | Throw error =>
      {| data := PNull; errors := Some [ {| message := catch_message error |} ] |}
  end.

(** *** The predefined query documents *)

Module queries.

Definition getAllArtists : string := "
    query GetAllArtists {
      artists {
        id
        name
        categories
        location
        priceRange {
          min
          max
        }
        bio
        imageUrl
        languages
      }
    }
  ".

Definition getArtistById : string := "
    query GetArtistById($id: String!) {
      artist(id: $id) {
        id
        name
        categories
        location
        priceRange {
          min
          max
        }
        bio
        imageUrl
        languages
      }
    }
  ".

Definition getArtistsByCategory : string := "
    query GetArtistsByCategory($category: String!) {
      artistsByCategory(category: $category) {
        id
        name
        categories
        location
        priceRange {
          min
          max
        }
        imageUrl
      }
    }
  ".

Definition getArtistsByLocation : string := "
    query GetArtistsByLocation($location: String!) {
      artistsByLocation(location: $location) {
        id
        name
        categories
        location
        priceRange {
          min
          max
        }
        imageUrl
      }
    }
  ".

End queries.

End GraphQL.

(** ** The filter engine (the hook [useOptimizedFilters]) *)

Module Filters.
Import JsString.

Record FilterConfig := {
  category : string;
  location : string;
  price : Z * Z;
}.

(** The filters that [useState] starts with and [clearFilters] restores. *)
Definition default_filters : FilterConfig :=
  {| category := "all"; location := ""; price := (0, 5000) |}.

(** The callback of [artists.filter] in [filteredArtists]. *)
Definition filter_callback (deferredFilters : FilterConfig) (artist : Types.Artist)
  : bool :=
  let category := category deferredFilters in
  let location := location deferredFilters in
  let price := price deferredFilters in
  if negb (category =? "all")%string
     && negb (Js.Array_includes (Types.categories artist) (Js.VString category))
  then false
  else if negb (location =? "")%string
          && negb (includes (toLowerCase (Types.location artist)) (toLowerCase location))
  then false
  else if (Types.min (Types.priceRange artist) >? price.2)
          || (Types.max (Types.priceRange artist) <? price.1)
  then false
  else true.

Definition filteredArtists (artists : list Types.Artist) (deferredFilters : FilterConfig)
  : list Types.Artist :=
  List.filter (filter_callback deferredFilters) artists.

(** [new Set(l)]: the elements of [l] in the order of their first
    occurrence. *)
Definition Set_add (s : list string) (x : string) : list string :=
  if Js.mem x s then s else s ++ [x].

Definition new_Set (l : list string) : list string := fold_left Set_add l [].

(** [l.sort()] on strings: the default comparison orders strings by their
    code units.  The order is total and equal strings are the same value,
    so every sorting algorithm returns the same array. *)
Definition sort (l : list string) : list string := merge_sort String.le l.

Definition availableLocations (artists : list Types.Artist) : list string :=
  let locations := new_Set (map Types.location artists) in
  sort locations.

(** A number that [Math.min] or [Math.max] returns. *)
Inductive number :=
| Finite (n : Z)
| Infinity
| NegInfinity.

(** [Math.min(...l)]: [Infinity] when [l] is empty. *)
Definition Math_min (l : list Z) : number :=
  fold_left
    (λ lowest x,
       match lowest with
       | Finite m => Finite (Z.min m x)
       | Infinity => Finite x
       | NegInfinity => NegInfinity
       end)
    l Infinity.

(** [Math.max(...l)]: [-Infinity] when [l] is empty. *)
Definition Math_max (l : list Z) : number :=
  fold_left
    (λ highest x,
       match highest with
       | Finite m => Finite (Z.max m x)
       | NegInfinity => Finite x
       | Infinity => Infinity
       end)
    l NegInfinity.

Record PriceStats := { min : number; max : number }.

(** The array [prices] of [priceStats]. *)
Definition prices_of (artists : list Types.Artist) : list Z :=
  flat_map
    (λ artist, [ Types.min (Types.priceRange artist);
                 Types.max (Types.priceRange artist) ])
    artists.

Definition priceStats (artists : list Types.Artist) : PriceStats :=
  if (length artists =? 0)%nat then {| min := Finite 0; max := Finite 5000 |}
  else
    let prices := prices_of artists in
    {| min := Math_min prices; max := Math_max prices |}.

(** *** The predicates of the specification *)

(** The three predicates that a record has to pass. *)
Definition category_passes (cfg : FilterConfig) (a : Types.Artist) : Prop :=
  category cfg = "all" ∨ category cfg ∈ Types.categories a.

Definition location_passes (cfg : FilterConfig) (a : Types.Artist) : Prop :=
  location cfg = ""
  ∨ Substring (toLowerCase (location cfg)) (toLowerCase (Types.location a)).

Definition price_passes (cfg : FilterConfig) (a : Types.Artist) : Prop :=
  Types.min (Types.priceRange a) ≤ (price cfg).2
  ∧ Types.max (Types.priceRange a) >= (price cfg).1.

Definition passes (cfg : FilterConfig) (a : Types.Artist) : Prop :=
  category_passes cfg a ∧ location_passes cfg a ∧ price_passes cfg a.

(** [selection P l l']: [l'] holds exactly the elements of [l] that satisfy
    [P], each as often as in [l] and in the order of [l]. *)
Inductive selection {A : Type} (P : A → Prop) : list A → list A → Prop :=
| selection_nil : selection P [] []
| selection_keep x l l' : P x → selection P l l' → selection P (x :: l) (x :: l')
| selection_drop x l l' : ¬ P x → selection P l l' → selection P (x :: l) l'.

(** [m] is the least element of [l]. *)
Definition is_minimum (m : Z) (l : list Z) : Prop :=
  m ∈ l ∧ ∀ x, x ∈ l → m ≤ x.

(** [m] is the greatest element of [l]. *)
Definition is_maximum (m : Z) (l : list Z) : Prop :=
  m ∈ l ∧ ∀ x, x ∈ l → x ≤ m.

(** The lexicographic order of strings by code unit. *)
Inductive lex_le : string → string → Prop :=
| lex_le_empty t : lex_le EmptyString t
| lex_le_less c d s t :
    (N_of_ascii c < N_of_ascii d)%N → lex_le (String c s) (String d t)
| lex_le_same c s t : lex_le s t → lex_le (String c s) (String c t).

End Filters.

(** ** The controls of the filter hook *)

Module FilterControls.
Import Filters.

(** [Partial<FilterConfig>]: the keys that an update names.  A key that is
    named with the value [undefined] is outside the model. *)
Record PartialFilterConfig := {
  category : option string;
  location : option string;
  price : option (Z * Z);
}.

(** The spread [{ ...prev, ...newFilters }]. *)
Definition spread (prev : FilterConfig) (newFilters : PartialFilterConfig)
  : FilterConfig :=
  {| Filters.category := default (Filters.category prev) (category newFilters);
     Filters.location := default (Filters.location prev) (location newFilters);
     Filters.price := default (Filters.price prev) (price newFilters) |}.

(** [updateFilters(newFilters)], as the update of the state [filters]. *)
Definition updateFilters (newFilters : PartialFilterConfig) (prev : FilterConfig)
  : FilterConfig :=
  spread prev newFilters.

(** [clearFilters()], as the update of the state [filters]. *)
Definition clearFilters (prev : FilterConfig) : FilterConfig :=
  {| Filters.category := "all"; Filters.location := ""; Filters.price := (0, 5000) |}.

End FilterControls.

(** ** The shared state ([src/contexts/AppContext.tsx]) *)

Module AppContext.

Inductive NotificationType := success | error | info.

Inductive Theme := light | dark | system.

Record Notification := {
  id : string;
  type : NotificationType;
  message : string;
}.

(** A notification without its [id], the payload of [ADD_NOTIFICATION]. *)
Module New.
Record Notification := {
  type : NotificationType;
  message : string;
}.
End New.

Record AppState := {
  artists : list Types.Artist;
  isLoading : bool;
  filters : Filters.FilterConfig;
  theme : Theme;
  notifications : list Notification;
}.

Inductive AppAction :=
| SET_ARTISTS (payload : list Types.Artist)
| ADD_TEMPORARY_ARTIST (payload : Types.Artist)
| SET_LOADING (payload : bool)
| SET_FILTERS (payload : FilterControls.PartialFilterConfig)
| SET_THEME (payload : Theme)
| ADD_NOTIFICATION (payload : New.Notification)
| REMOVE_NOTIFICATION (payload : string)
| CLEAR_FILTERS.

Definition initialState : AppState :=
  {| artists := [];
     isLoading := false;
     filters :=
       {| Filters.category := "all"; Filters.location := ""; Filters.price := (0, 5000) |};
     theme := system;
     notifications := [] |}.

(** [appReducer], with the value [now] that [Date.now()] returns when the
    action is reduced.  No action of the type [AppAction] reaches the
    [default] branch of the [switch]. *)
Definition appReducer (now : Z) (state : AppState) (action : AppAction) : AppState :=
  match action with
  | SET_ARTISTS payload =>
      {| artists := payload;
         isLoading := isLoading state;
         filters := filters state;
         theme := theme state;
         notifications := notifications state |}
  | ADD_TEMPORARY_ARTIST payload =>
      {| artists := artists state ++ [payload];
         isLoading := isLoading state;
         filters := filters state;
         theme := theme state;
         notifications := notifications state |}
  | SET_LOADING payload =>
      {| artists := artists state;
         isLoading := payload;
         filters := filters state;
         theme := theme state;
         notifications := notifications state |}
  | SET_FILTERS payload =>
      {| artists := artists state;
         isLoading := isLoading state;
         filters := FilterControls.spread (filters state) payload;
         theme := theme state;
         notifications := notifications state |}
  | SET_THEME payload =>
      {| artists := artists state;
         isLoading := isLoading state;
         filters := filters state;
         theme := payload;
         notifications := notifications state |}
  | ADD_NOTIFICATION payload =>
      let newNotification :=
        {| type := New.type payload;
           message := New.message payload;
           id := Types.Number_toString now |} in
      {| artists := artists state;
         isLoading := isLoading state;
         filters := filters state;
         theme := theme state;
         notifications := notifications state ++ [newNotification] |}
  | REMOVE_NOTIFICATION payload =>
      {| artists := artists state;
         isLoading := isLoading state;
         filters := filters state;
         theme := theme state;
         notifications :=
           List.filter (λ n, negb (id n =? payload)%string) (notifications state) |}
  | CLEAR_FILTERS =>
      {| artists := artists state;
         isLoading := isLoading state;
         filters := filters initialState;
         theme := theme state;
         notifications := notifications state |}
  end.

End AppContext.

(** ** The onboarding form and the listing page *)

Module Pages.
Import AppContext.

(** [artist.id.startsWith('temp-')] *)
Definition isTemporaryArtist (artist : Types.Artist) : bool :=
  JsString.startsWith (Types.id artist) "temp-".

(** [state.artists.filter(artist => artist.id.startsWith('temp-'))] *)
Definition temporaryArtists (state : AppState) : list Types.Artist :=
  List.filter isTemporaryArtist (artists state).

(** The action that the listing page dispatches when the REST fallback has
    returned the records [data]. *)
Definition loaded (data : list Types.Artist) (state : AppState) : AppAction :=
  SET_ARTISTS (data ++ temporaryArtists state).

(** The two dispatches of [onSubmit] in the onboarding form: the record of
    the form is appended, then a notification of the success is added.
    [now] is the value of [Date.now()] when the record is made, [later] its
    value when the notification is reduced. *)
Definition onSubmit {File : Type} (createObjectURL : File → string) (now later : Z)
    (values : Types.Form.ArtistFormData File) (state : AppState) : AppState :=
  let newArtist := Types.transformFormDataToArtist createObjectURL now values in
  let state := appReducer now state (ADD_TEMPORARY_ARTIST newArtist) in
  appReducer later state
    (ADD_NOTIFICATION
       {| New.type := success;
          New.message :=
            "Artist profile for " +:+ Types.Form.name values
            +:+ " has been submitted successfully and is now visible in the artists listing." |}).

End Pages.

(** ** Sample records and filters *)

Module Samples.

Definition ann : Types.Artist :=
  {| Types.id := "1";
     Types.name := "Ann";
     Types.categories := ["singer"];
     Types.location := "New York";
     Types.priceRange := {| Types.min := 500; Types.max := 1000 |};
     Types.bio := "Jazz singer";
     Types.imageUrl := "https://placehold.co/400x400.png";
     Types.languages := ["english"] |}.

Definition bob : Types.Artist :=
  {| Types.id := "2";
     Types.name := "Bob";
     Types.categories := ["dj"];
     Types.location := "Boston";
     Types.priceRange := {| Types.min := 2000; Types.max := 3000 |};
     Types.bio := "Club DJ";
     Types.imageUrl := "https://placehold.co/400x400.png";
     Types.languages := ["english"; "spanish"] |}.

(** A price interval with its bounds exchanged: 900 to 600. *)
Definition inverted : Filters.FilterConfig :=
  {| Filters.category := "all"; Filters.location := ""; Filters.price := (900, 600) |}.

Definition narrow : Filters.FilterConfig :=
  {| Filters.category := "all"; Filters.location := "new"; Filters.price := (900, 950) |}.

Definition wide : Filters.FilterConfig :=
  {| Filters.category := "all"; Filters.location := "new"; Filters.price := (0, 5000) |}.

(** A request for the records of a location that names no location. *)
Definition no_location : GraphQL.GraphQLQuery :=
  {| GraphQL.query := GraphQL.queries.getArtistsByLocation; GraphQL.variables := None |}.

End Samples.

(** * Properties *)

(** ** Strings *)

Section JsStringFacts.
Import JsString.

Lemma append_cons (c : ascii) (s t : string) :
  String c s +:+ t = String c (s +:+ t).
Proof. reflexivity. Qed.

Lemma startsWith_spec (s p : string) :
  startsWith s p = true ↔ ∃ post, s = p +:+ post.
Proof.
  revert s. induction p as [|a p IH]; intros s.
  - split; [intros _; by exists s | by destruct s].
  - destruct s as [|b s]; simpl.
    + split; [done | by intros [post ?]].
    + destruct (Ascii.eqb_spec a b) as [->|Hab].
      * rewrite IH. split; intros [post Hpost]; exists post.
        -- by rewrite append_cons, Hpost.
        -- rewrite append_cons in Hpost. by injection Hpost.
      * split; [done|]. intros [post Hpost].
        rewrite append_cons in Hpost. injection Hpost as Hba _. by destruct Hab.
Qed.

Lemma includes_cons (c : ascii) (s needle : string) :
  includes (String c s) needle
  = if startsWith (String c s) needle then true else includes s needle.
Proof. reflexivity. Qed.

Lemma includes_nil (needle : string) :
  includes EmptyString needle = startsWith EmptyString needle.
Proof. by destruct needle. Qed.

Lemma includes_spec (s needle : string) :
  includes s needle = true ↔ Substring needle s.
Proof.
  split.
  - induction s as [|c s IH].
    + destruct needle; [|done]. intros _. by exists EmptyString, EmptyString.
    + rewrite includes_cons.
      destruct (startsWith (String c s) needle) eqn:Hp.
      * intros _. apply startsWith_spec in Hp as [post Hpost].
        by exists EmptyString, post.
      * intros [pre [post Hs]]%IH. exists (String c pre), post.
        by rewrite append_cons, Hs.
  - intros [pre [post Hs]]. revert s Hs.
    induction pre as [|c pre IH]; intros s Hs.
    + assert (startsWith s needle = true) as Hp
        by (apply startsWith_spec; by exists post).
      destruct s; [by rewrite includes_nil | by rewrite includes_cons, Hp].
    + rewrite append_cons in Hs. subst s. rewrite includes_cons.
      destruct (startsWith _ needle); [done|]. by apply IH.
Qed.

Lemma includes_false (s needle : string) :
  includes s needle = false ↔ ¬ Substring needle s.
Proof.
  rewrite <- includes_spec. by destruct (includes s needle).
Qed.

Lemma mem_spec (x : string) (l : list string) : Js.mem x l = true ↔ x ∈ l.
Proof.
  induction l as [|y l IH]; simpl.
  - split; [done | by intros ?%elem_of_nil].
  - rewrite elem_of_cons. destruct (String.eqb_spec x y) as [->|Hxy].
    + split; auto.
    + rewrite IH. split; [auto | by intros [?|?]].
Qed.

Lemma Array_includes_spec (l : list string) (x : string) :
  Js.Array_includes l (Js.VString x) = true ↔ x ∈ l.
Proof.
  induction l as [|y l IH]; simpl.
  - split; [done | by intros ?%elem_of_nil].
  - rewrite elem_of_cons. destruct (String.eqb_spec y x) as [->|Hxy].
    + split; auto.
    + rewrite IH. split; [auto | intros [?|?]; [by subst | done]].
Qed.

End JsStringFacts.

(** ** The query resolver *)

Section ParseQueryFacts.
Import JsString Js GraphQL.

(** The capture of [fieldMatch] ends before the first closing brace: no
    text behind a nested selection is part of it. *)
Lemma until_close_no_brace (s body : string) :
  until_close s = Some body → ¬ Substring "}" body.
Proof.
  revert body. induction s as [|c s IH]; intros body; simpl; [done|].
  destruct (Ascii.eqb_spec c close_brace) as [->|Hc].
  - intros [= <-] [pre [post Heq]]. by destruct pre.
  - destruct (until_close s) as [t|]; [|done]. intros [= <-] [pre [post Heq]].
    destruct pre as [|d pre]; rewrite ?append_cons in Heq.
    + injection Heq as Hd _. by destruct Hc.
    + injection Heq as _ Ht. apply (IH t); [done | by exists pre, post].
Qed.

Lemma fieldMatch_no_brace (query body : string) :
  fieldMatch query = Some body → ¬ Substring "}" body.
Proof.
  induction query as [|c s IH]; simpl; [done|].
  destruct (Ascii.eqb c open_brace); [|done].
  destruct (until_close s) as [[|d t]|] eqn:Hclose; [done| |done].
  intros [= <-]. by apply (until_close_no_brace s).
Qed.

(** C1 (the code at the predefined documents).  The field list that
    [parseQuery] extracts from each of the four predefined documents: it
    starts with the line of the operation and ends with [min] and [max],
    the last lines before the first closing brace.  The fields [bio],
    [imageUrl] and [languages] of the fetch-all document are not in its
    list. *)
Theorem parseQuery_predefined_documents :
  parseQuery queries.getAllArtists
  = ["artists"; "id"; "name"; "categories"; "location"; "priceRange"; "min"; "max"]
  ∧ parseQuery queries.getArtistById
    = ["artist(id: $id)"; "id"; "name"; "categories"; "location"; "priceRange";
       "min"; "max"]
  ∧ parseQuery queries.getArtistsByCategory
    = ["artistsByCategory(category: $category)"; "id"; "name"; "categories";
       "location"; "priceRange"; "min"; "max"]
  ∧ parseQuery queries.getArtistsByLocation
    = ["artistsByLocation(location: $location)"; "id"; "name"; "categories";
       "location"; "priceRange"; "min"; "max"]
  ∧ ("bio" ∉ parseQuery queries.getAllArtists)
  ∧ ("imageUrl" ∉ parseQuery queries.getAllArtists)
  ∧ ("languages" ∉ parseQuery queries.getAllArtists).
Proof.
  repeat split; try reflexivity;
    rewrite <- mem_spec; by vm_compute.
Qed.

End ParseQueryFacts.

Section ClassificationFacts.
Import JsString Js GraphQL.

Lemma includes_reflect (s needle : string) :
  reflect (Substring needle s) (includes s needle).
Proof.
  destruct (includes s needle) eqn:H; constructor.
  - by apply includes_spec.
  - by apply includes_false.
Qed.

(** C4.  The operation is chosen by the presence of three patterns in the
    text of the query, in this order of precedence: the pattern of the
    fetch by identifier, then that of the fetch by category, then that of
    the fetch by location; a text with none of them selects the fetch of
    all records. *)
Theorem operation_of_precedence (queryString : string) :
  (operation_of queryString = "artist" ↔ Substring "artist(" queryString)
  ∧ (operation_of queryString = "artistsByCategory"
     ↔ (¬ Substring "artist(" queryString)
       ∧ Substring "artistsByCategory" queryString)
  ∧ (operation_of queryString = "artistsByLocation"
     ↔ (¬ Substring "artist(" queryString)
       ∧ (¬ Substring "artistsByCategory" queryString)
       ∧ Substring "artistsByLocation" queryString)
  ∧ (operation_of queryString = "artists"
     ↔ (¬ Substring "artist(" queryString)
       ∧ (¬ Substring "artistsByCategory" queryString)
       ∧ (¬ Substring "artistsByLocation" queryString)).
Proof.
  unfold operation_of.
  destruct (includes_reflect queryString "artist(");
    [|destruct (includes_reflect queryString "artistsByCategory");
      [|destruct (includes_reflect queryString "artistsByLocation")]];
    repeat split; try done; intuition discriminate.
Qed.

(** Every operation that [operation_of] selects has a resolver: the guard
    for an unknown operation never throws. *)
Lemma resolvers_lookup_operation_of (queryString : string) :
  resolvers_lookup (operation_of queryString)
  = Some (if includes queryString "artist(" then resolvers.artist
          else if includes queryString "artistsByCategory"
               then resolvers.artistsByCategory
          else if includes queryString "artistsByLocation"
               then resolvers.artistsByLocation
          else resolvers.artists).
Proof.
  unfold operation_of. by repeat case_match.
Qed.

Example operation_of_getAllArtists : operation_of queries.getAllArtists = "artists".
Proof. reflexivity. Qed.

Example operation_of_getArtistById : operation_of queries.getArtistById = "artist".
Proof. reflexivity. Qed.

Example operation_of_getArtistsByCategory :
  operation_of queries.getArtistsByCategory = "artistsByCategory".
Proof. reflexivity. Qed.

Example operation_of_getArtistsByLocation :
  operation_of queries.getArtistsByLocation = "artistsByLocation".
Proof. reflexivity. Qed.

End ClassificationFacts.

Section ExceptionFacts.
Import JsString Js GraphQL.

Lemma call_toLowerCase_throws (receiver : string) (v : value) (e : thrown) :
  call_toLowerCase receiver v = Throw e → is_Error e.
Proof. destruct v; simpl; by intros [= <-]. Qed.

(** A filter throws what its callback throws on one of the elements. *)
Lemma filterM_throws {A : Type} (f : A → result bool) (l : list A) (e : thrown) :
  filterM f l = Throw e → ∃ x, x ∈ l ∧ f x = Throw e.
Proof.
  induction l as [|x l IH]; simpl; [done|].
  destruct (f x) as [b|e'] eqn:Hfx; simpl.
  - destruct (filterM f l) as [kept|e'']; simpl; [done|].
    intros [= ->]. destruct IH as [y [Hy Hfy]]; [done|].
    exists y. split; [by apply list_elem_of_further | done].
  - intros [= ->]. exists x. split; [apply list_elem_of_here | done].
Qed.

Lemma resolver_throws_Error
    (artists : list Types.Artist) (queryString : string)
    (resolver : list Types.Artist → gmap string value → result resolved)
    (args : gmap string value) (e : thrown) :
  resolvers_lookup (operation_of queryString) = Some resolver →
  resolver artists args = Throw e → is_Error e.
Proof.
  rewrite resolvers_lookup_operation_of. intros [= <-].
  repeat case_match; try done.
  unfold resolvers.artistsByLocation.
  destruct (filterM _ artists) as [kept|e'] eqn:Hfilter; simpl; [done|].
  intros [= ->]. apply filterM_throws in Hfilter as [a [_ Ha]].
  destruct (call_toLowerCase _ _) as [needle|e'] eqn:Hcall; simpl in Ha; [done|].
  injection Ha as ->. by eapply call_toLowerCase_throws.
Qed.

(** Whatever the [try] block throws is an instance of [Error]. *)
Lemma try_block_throws_Error
    (artists : list Types.Artist) (q : GraphQLQuery) (e : thrown) :
  try_block artists q = Throw e → is_Error e.
Proof.
  unfold try_block.
  destruct (resolvers_lookup (operation_of (query q))) as [resolver|] eqn:Hlookup;
    simpl; [|by intros [= <-]].
  destruct (resolver artists (default ∅ (variables q))) as [r|e'] eqn:Hres; simpl.
  - by destruct r.
  - intros [= ->]. by eapply resolver_throws_Error.
Qed.

(** C5.  An exception of the [try] block does not leave [graphqlRequest]:
    the function returns a response for every request, and when the block
    throws, the data of the response is [null] and its list of errors has
    one entry, which carries the message of the exception. *)
Theorem graphqlRequest_catches
    (artists : list Types.Artist) (q : GraphQLQuery) (e : thrown) :
  try_block artists q = Throw e →
  ∃ m, (e = Error m ∨ e = TypeError m)
       ∧ graphqlRequest artists q
         = {| data := PNull; errors := Some [ {| message := m |} ] |}.
Proof.
  intros Hthrow. unfold graphqlRequest. rewrite Hthrow.
  apply try_block_throws_Error in Hthrow.
  destruct e as [m|m|v]; [exists m; auto ..|done].
Qed.

Lemma graphqlRequest_catches_witness :
  ∃ m, (TypeError "Cannot read properties of undefined (reading 'toLowerCase')"
        = Error m
        ∨ TypeError "Cannot read properties of undefined (reading 'toLowerCase')"
          = TypeError m)
       ∧ graphqlRequest [Samples.ann; Samples.bob] Samples.no_location
         = {| data := PNull; errors := Some [ {| message := m |} ] |}.
Proof.
  apply (graphqlRequest_catches [Samples.ann; Samples.bob] Samples.no_location
           (TypeError "Cannot read properties of undefined (reading 'toLowerCase')")).
  reflexivity.
Defined.

(** A response without errors is what the [try] block returned. *)
Lemma graphqlRequest_returns
    (artists : list Types.Artist) (q : GraphQLQuery) (response : GraphQLResponse) :
  try_block artists q = Ok response →
  graphqlRequest artists q = response ∧ errors response = None.
Proof.
  intros Hok. unfold graphqlRequest. rewrite Hok. split; [done|].
  unfold try_block in Hok.
  destruct (resolvers_lookup _); simpl in Hok; [|done].
  destruct (_ artists _) as [[l|a|]|]; simpl in Hok; by simplify_eq.
Qed.

End ExceptionFacts.

Section ProjectionFacts.
Import JsString Js GraphQL.

Lemma own_define (o : object) (key k : string) (v : value) :
  own (define o key v) k = if (k =? key)%string then Some v else own o k.
Proof.
  induction o as [|[k' w] o IH]; simpl.
  - done.
  - destruct (String.eqb_spec key k') as [->|Hne]; simpl.
    + by destruct (String.eqb_spec k k').
    + rewrite IH. destruct (String.eqb_spec k k') as [->|?]; [|done].
      destruct (String.eqb_spec k' key) as [->|?]; done.
Qed.

Lemma own_set (o : object) (key k : string) (v : value) :
  own (set o key v) k
  = if assignable key && (k =? key)%string then Some v else own o k.
Proof.
  unfold set, assignable. destruct (key =? "__proto__")%string; simpl; [done|].
  apply own_define.
Qed.

Lemma own_copy_fields (artist : object) (fields : list string)
    (filtered : object) (k : string) :
  own (fold_left (copy_field artist) fields filtered) k
  = if mem k fields && has artist k && assignable k
    then Some (get artist k) else own filtered k.
Proof.
  revert filtered. induction fields as [|f fields IH]; intros filtered; simpl.
  - done.
  - rewrite IH. unfold copy_field.
    destruct (String.eqb_spec k f) as [->|Hkf]; simpl.
    + destruct (mem f fields), (has artist f) eqn:Hhas, (assignable f) eqn:Hf;
        simpl; try done; rewrite own_set, Hf, ?String.eqb_refl; done.
    + destruct (has artist f); [|done]. rewrite own_set.
      apply String.eqb_neq in Hkf. rewrite Hkf, andb_false_r. done.
Qed.

Lemma own_project (fields : list string) (artist : object) (k : string) :
  own (project fields artist) k
  = if mem k fields && has artist k && assignable k
    then Some (get artist k) else None.
Proof. apply (own_copy_fields artist fields [] k). Qed.

Lemma not_assignable_inherited (k : string) :
  assignable k = false → mem k Object_prototype = true.
Proof.
  unfold assignable. destruct (String.eqb_spec k "__proto__") as [->|]; done.
Qed.

(** On a requested field, the projection of a record has the field exactly
    when the record has it, and the same value is copied from both. *)
Lemma has_project (fields : list string) (artist : object) (field : string) :
  mem field fields = true →
  has (project fields artist) field = has artist field.
Proof.
  intros Hin. unfold has at 1. rewrite own_project, Hin. simpl.
  destruct (has artist field) eqn:Hhas, (assignable field) eqn:Hassign;
    simpl; try done.
  - by apply not_assignable_inherited.
  - unfold has in Hhas. by destruct (own artist field).
  - unfold has in Hhas. by destruct (own artist field).
Qed.

Lemma get_project (fields : list string) (artist : object) (field : string) :
  mem field fields = true → has artist field = true → assignable field = true →
  get (project fields artist) field = get artist field.
Proof.
  intros Hin Hhas Hassign. unfold get at 1.
  by rewrite own_project, Hin, Hhas, Hassign.
Qed.

Lemma copy_field_project (fields : list string) (artist filtered : object)
    (field : string) :
  field ∈ fields →
  copy_field (project fields artist) filtered field
  = copy_field artist filtered field.
Proof.
  intros Hin%mem_spec. unfold copy_field. rewrite has_project by done.
  destruct (has artist field) eqn:Hhas; [|done].
  destruct (assignable field) eqn:Hassign.
  - by rewrite get_project.
  - unfold set. unfold assignable in Hassign.
    by destruct (field =? "__proto__")%string.
Qed.

Lemma fold_left_ext_in {A B : Type} (f g : A → B → A) (l : list B) (a : A) :
  (∀ a x, x ∈ l → f a x = g a x) → fold_left f l a = fold_left g l a.
Proof.
  revert a. induction l as [|x l IH]; intros a Hfg; simpl; [done|].
  rewrite Hfg by apply list_elem_of_here.
  apply IH. intros b y Hy. apply Hfg. by apply list_elem_of_further.
Qed.

(** The projection of any object of the model is a fixed point of the
    projection on the same fields. *)
Lemma project_project (fields : list string) (o : object) :
  project fields (project fields o) = project fields o.
Proof.
  unfold project at 1 3.
  apply (fold_left_ext_in (copy_field (project fields o)) (copy_field o)).
  intros filtered field Hin. by apply copy_field_project.
Qed.

(** A document that requests [id] and [name] from the fetch of all records
    returns these two fields of every record, and nothing else. *)
Example graphqlRequest_id_name :
  graphqlRequest [Samples.ann; Samples.bob]
    {| query := "{
         artists {
           id
           name
         }"; variables := None |}
  = {| data := PList [ [("id", VString "1"); ("name", VString "Ann")];
                       [("id", VString "2"); ("name", VString "Bob")] ];
       errors := None |}.
Proof. reflexivity. Qed.

(** A document with empty braces has no field: every record of the response
    is an empty object. *)
Example graphqlRequest_empty_braces :
  parseQuery "query {}" = []
  ∧ graphqlRequest [Samples.ann; Samples.bob] {| query := "query {}"; variables := None |}
    = {| data := PList [ []; [] ]; errors := None |}.
Proof. split; reflexivity. Qed.

(** A requested name that every object inherits is copied as an own property;
    the name of the prototype accessor leaves no property. *)
Example project_inherited :
  project ["toString"; "id"; "__proto__"; "id"] (artist_object Samples.ann)
  = [("toString", VInherited "toString"); ("id", VString "1")].
Proof. reflexivity. Qed.

(** C9.  Projecting the projection of a record on the same fields gives
    the projection again: the same properties with the same values in the
    same order. *)
Theorem project_idempotent (a : Types.Artist) (fields : list string) :
  project fields (project fields (artist_object a))
  = project fields (artist_object a).
Proof. apply project_project. Qed.

End ProjectionFacts.

(** ** The filter engine *)

Section SelectionFacts.
Import Filters.
Context {A : Type} (P : A → Prop).

Lemma selection_elem_of (l l' : list A) (x : A) :
  selection P l l' → x ∈ l' ↔ x ∈ l ∧ P x.
Proof.
  induction 1 as [|y l l' Hy _ IH|y l l' Hy _ IH]; rewrite ?elem_of_cons.
  - rewrite elem_of_nil. tauto.
  - rewrite IH. split; [intros [->|[??]]; auto | tauto].
  - rewrite IH. split; [tauto | intros [[->|?] ?]; [done | auto]].
Qed.

Lemma selection_sublist (l l' : list A) : selection P l l' → l' `sublist_of` l.
Proof. induction 1; by constructor. Qed.

Lemma selection_unique (l l1 l2 : list A) :
  selection P l l1 → selection P l l2 → l1 = l2.
Proof.
  intros H1. revert l2.
  induction H1 as [|y l l' Hy _ IH|y l l' Hy _ IH]; intros l2 H2;
    inversion H2; subst; try done.
  - f_equal. by apply IH.
  - by apply IH.
Qed.

(** A filter with a callback that decides [P] is the selection by [P]. *)
Lemma selection_filter (f : A → bool) (l : list A) :
  (∀ x, f x = true ↔ P x) → selection P l (List.filter f l).
Proof.
  intros Hf. induction l as [|x l IH]; simpl; [constructor|].
  destruct (f x) eqn:Hfx.
  - constructor; [by apply Hf | done].
  - constructor; [|done]. intros Hx%Hf. congruence.
Qed.
End SelectionFacts.

Section FilterFacts.
Import JsString Filters.

Lemma category_check (cfg : FilterConfig) (a : Types.Artist) :
  negb (category cfg =? "all")%string
  && negb (Js.Array_includes (Types.categories a) (Js.VString (category cfg))) = false
  ↔ category_passes cfg a.
Proof.
  unfold category_passes. rewrite <- Array_includes_spec.
  destruct (String.eqb_spec (category cfg) "all"); simpl; [tauto|].
  destruct (Js.Array_includes _ _); simpl; intuition congruence.
Qed.

Lemma location_check (cfg : FilterConfig) (a : Types.Artist) :
  negb (location cfg =? "")%string
  && negb (includes (toLowerCase (Types.location a)) (toLowerCase (location cfg)))
  = false
  ↔ location_passes cfg a.
Proof.
  unfold location_passes. rewrite <- includes_spec.
  destruct (String.eqb_spec (location cfg) ""); simpl; [tauto|].
  destruct (includes _ _); simpl; intuition congruence.
Qed.

Lemma price_check (cfg : FilterConfig) (a : Types.Artist) :
  (Types.min (Types.priceRange a) >? (price cfg).2)
  || (Types.max (Types.priceRange a) <? (price cfg).1) = false
  ↔ price_passes cfg a.
Proof.
  unfold price_passes. rewrite orb_false_iff, Z.gtb_ltb, !Z.ltb_ge. lia.
Qed.

(** The callback of the filter returns [true] exactly on the records that
    pass the three predicates. *)
Lemma filter_callback_spec (cfg : FilterConfig) (a : Types.Artist) :
  filter_callback cfg a = true ↔ passes cfg a.
Proof.
  unfold passes.
  rewrite <- category_check, <- location_check, <- price_check.
  unfold filter_callback. simpl. repeat case_match; intuition congruence.
Qed.

(** C3.  The result of the filter is the selection of the records that
    pass the predicate of the category, the predicate of the location and
    the predicate of the price: exactly these records, in the order of the
    record set. *)
Theorem filteredArtists_selection
    (artists : list Types.Artist) (cfg : FilterConfig) :
  selection (passes cfg) artists (filteredArtists artists cfg).
Proof. apply selection_filter, filter_callback_spec. Qed.

Lemma elem_of_filteredArtists
    (artists : list Types.Artist) (cfg : FilterConfig) (a : Types.Artist) :
  a ∈ filteredArtists artists cfg ↔ a ∈ artists ∧ passes cfg a.
Proof. apply selection_elem_of, selection_filter, filter_callback_spec. Qed.

End FilterFacts.

Section PriceFacts.
Import Filters Samples.

(** C2 (the claim fails).  The price interval of the filters is
    inverted, 900 to 600, and the record whose prices go from 500 to 1000
    passes the filter. *)
Lemma inverted_price_keeps_record :
  (price inverted).1 > (price inverted).2
  ∧ filteredArtists [ann; bob] inverted = [ann].
Proof. split; reflexivity. Qed.

(** C2 (amended).  Under an inverted price interval the filter returns only
    records whose own price interval spans the interval of the filters,
    from its upper to its lower bound; the result is empty when the record
    set has no such record. *)
Theorem filteredArtists_inverted
    (artists : list Types.Artist) (cfg : FilterConfig) :
  (price cfg).1 > (price cfg).2 →
  (∀ a, a ∈ filteredArtists artists cfg →
        Types.min (Types.priceRange a) ≤ (price cfg).2
        ∧ (price cfg).2 < (price cfg).1
        ∧ (price cfg).1 ≤ Types.max (Types.priceRange a))
  ∧ (Forall (λ a, Types.max (Types.priceRange a) < (price cfg).1
                  ∨ (price cfg).2 < Types.min (Types.priceRange a)) artists →
     filteredArtists artists cfg = []).
Proof.
  intros Hinverted. split.
  - intros a [_ (_ & _ & [Hlo Hhi])]%elem_of_filteredArtists. lia.
  - intros Hnone. apply elem_of_nil_inv. intros a.
    rewrite elem_of_filteredArtists. intros [Ha (_ & _ & [Hlo Hhi])].
    rewrite Forall_forall in Hnone. specialize (Hnone a Ha). simpl in Hnone. lia.
Qed.

Lemma filteredArtists_inverted_witness :
  (∀ a, a ∈ filteredArtists [bob] inverted →
        Types.min (Types.priceRange a) ≤ (price inverted).2
        ∧ (price inverted).2 < (price inverted).1
        ∧ (price inverted).1 ≤ Types.max (Types.priceRange a))
  ∧ (Forall (λ a, Types.max (Types.priceRange a) < (price inverted).1
                  ∨ (price inverted).2 < Types.min (Types.priceRange a)) [bob] →
     filteredArtists [bob] inverted = []).
Proof. apply (filteredArtists_inverted [bob] inverted). reflexivity. Defined.

(** C8.  A record that passes the filter still passes it when the lower
    bound of the price interval is lowered or its upper bound is raised and
    the category and the location stay as they are. *)
Theorem filteredArtists_widen
    (artists : list Types.Artist) (cfg cfg' : FilterConfig) (a : Types.Artist) :
  category cfg' = category cfg →
  location cfg' = location cfg →
  (price cfg').1 ≤ (price cfg).1 →
  (price cfg).2 ≤ (price cfg').2 →
  a ∈ filteredArtists artists cfg →
  a ∈ filteredArtists artists cfg'.
Proof.
  intros Hcategory Hlocation Hlo Hhi.
  rewrite !elem_of_filteredArtists.
  unfold passes, category_passes, location_passes, price_passes.
  rewrite Hcategory, Hlocation. intros (? & ? & ? & ? & ?).
  repeat split; try done; lia.
Qed.

Lemma filteredArtists_widen_witness : ann ∈ filteredArtists [ann; bob] wide.
Proof.
  apply (filteredArtists_widen [ann; bob] narrow wide ann);
    [reflexivity | reflexivity | simpl; lia | simpl; lia | apply list_elem_of_here].
Defined.

End PriceFacts.

Section PriceStatsFacts.
Import Filters Samples.

Lemma fold_min_spec (l : list Z) (m : Z) :
  (fold_left Z.min l m = m ∨ fold_left Z.min l m ∈ l)
  ∧ fold_left Z.min l m ≤ m
  ∧ ∀ x, x ∈ l → fold_left Z.min l m ≤ x.
Proof.
  revert m. induction l as [|y l IH]; intros m; simpl.
  - split; [by left|]. split; [lia|]. by intros x ?%elem_of_nil.
  - destruct (IH (Z.min m y)) as (Hin & Hle & Hall). split; [|split].
    + destruct Hin as [Heq|Hin].
      * rewrite Heq. destruct (Z.min_spec m y) as [[_ ->]|[_ ->]];
          [by left | right; apply list_elem_of_here].
      * right. by apply list_elem_of_further.
    + lia.
    + intros x [->|Hx]%elem_of_cons; [lia | by apply Hall].
Qed.

Lemma fold_max_spec (l : list Z) (m : Z) :
  (fold_left Z.max l m = m ∨ fold_left Z.max l m ∈ l)
  ∧ m ≤ fold_left Z.max l m
  ∧ ∀ x, x ∈ l → x ≤ fold_left Z.max l m.
Proof.
  revert m. induction l as [|y l IH]; intros m; simpl.
  - split; [by left|]. split; [lia|]. by intros x ?%elem_of_nil.
  - destruct (IH (Z.max m y)) as (Hin & Hle & Hall). split; [|split].
    + destruct Hin as [Heq|Hin].
      * rewrite Heq. destruct (Z.max_spec m y) as [[_ ->]|[_ ->]];
          [right; apply list_elem_of_here | by left].
      * right. by apply list_elem_of_further.
    + lia.
    + intros x [->|Hx]%elem_of_cons; [lia | by apply Hall].
Qed.

Lemma Math_min_cons (x : Z) (l : list Z) :
  Math_min (x :: l) = Finite (fold_left Z.min l x).
Proof.
  unfold Math_min. simpl. generalize x. clear x.
  induction l as [|y l IH]; intros x; simpl; [done | apply IH].
Qed.

Lemma Math_max_cons (x : Z) (l : list Z) :
  Math_max (x :: l) = Finite (fold_left Z.max l x).
Proof.
  unfold Math_max. simpl. generalize x. clear x.
  induction l as [|y l IH]; intros x; simpl; [done | apply IH].
Qed.

(** [Math.min] of one or more integers is the least of them. *)
Lemma Math_min_spec (l : list Z) :
  l ≠ [] → ∃ m, Math_min l = Finite m ∧ is_minimum m l.
Proof.
  destruct l as [|x l]; [done|]. intros _. rewrite Math_min_cons.
  eexists. split; [done|].
  destruct (fold_min_spec l x) as (Hin & Hle & Hall). split.
  - destruct Hin as [->|Hin]; [apply list_elem_of_here | by apply list_elem_of_further].
  - intros y [->|Hy]%elem_of_cons; [done | by apply Hall].
Qed.

(** [Math.max] of one or more integers is the greatest of them. *)
Lemma Math_max_spec (l : list Z) :
  l ≠ [] → ∃ m, Math_max l = Finite m ∧ is_maximum m l.
Proof.
  destruct l as [|x l]; [done|]. intros _. rewrite Math_max_cons.
  eexists. split; [done|].
  destruct (fold_max_spec l x) as (Hin & Hle & Hall). split.
  - destruct Hin as [->|Hin]; [apply list_elem_of_here | by apply list_elem_of_further].
  - intros y [->|Hy]%elem_of_cons; [done | by apply Hall].
Qed.

Lemma elem_of_prices_of (artists : list Types.Artist) (x : Z) :
  x ∈ prices_of artists
  ↔ ∃ a, a ∈ artists
         ∧ (x = Types.min (Types.priceRange a) ∨ x = Types.max (Types.priceRange a)).
Proof.
  unfold prices_of. rewrite list_elem_of_In, in_flat_map.
  split; intros [a [Ha Hx]]; exists a.
  - apply list_elem_of_In in Ha. split; [done|].
    destruct Hx as [<-|[<-|[]]]; auto.
  - apply list_elem_of_In in Ha. split; [done|].
    destruct Hx as [->| ->]; simpl; auto.
Qed.

(** C6.  On records whose prices are non-negative with the minimum at most
    the maximum, the lower bound of the facet is the least of the minimums
    of the records and its upper bound the greatest of their maximums; on
    the empty record set the facet is 0 to 5000. *)
Theorem priceStats_bounds (artists : list Types.Artist) :
  Forall (λ a, 0 ≤ Types.min (Types.priceRange a)
               ∧ Types.min (Types.priceRange a) ≤ Types.max (Types.priceRange a))
    artists →
  (artists = [] → priceStats artists = {| min := Finite 0; max := Finite 5000 |})
  ∧ (artists ≠ [] →
     ∃ lo hi,
       priceStats artists = {| min := Finite lo; max := Finite hi |}
       ∧ is_minimum lo (map (λ a, Types.min (Types.priceRange a)) artists)
       ∧ is_maximum hi (map (λ a, Types.max (Types.priceRange a)) artists)).
Proof.
  intros Hvalid. rewrite Forall_forall in Hvalid.
  split; [by intros ->|]. intros Hne.
  assert (prices_of artists ≠ []) as Hprices by (by destruct artists).
  destruct (Math_min_spec _ Hprices) as (lo & Hmin & Hlo_in & Hlo).
  destruct (Math_max_spec _ Hprices) as (hi & Hmax & Hhi_in & Hhi).
  exists lo, hi. split; [|split].
  - unfold priceStats. destruct artists as [|a artists]; [done|].
    change (length (a :: artists) =? 0)%nat with false. cbv iota zeta.
    by rewrite Hmin, Hmax.
  - apply elem_of_prices_of in Hlo_in as (a & Ha & Hlo_a). split.
    + apply list_elem_of_fmap. exists a. split; [|done].
      destruct Hlo_a as [->| ->]; [done|].
      assert (Types.max (Types.priceRange a) ≤ Types.min (Types.priceRange a)).
      { apply Hlo, elem_of_prices_of. eauto. }
      specialize (Hvalid a Ha). simpl in Hvalid. lia.
    + intros x (b & -> & Hb)%list_elem_of_fmap.
      apply Hlo, elem_of_prices_of. eauto.
  - apply elem_of_prices_of in Hhi_in as (a & Ha & Hhi_a). split.
    + apply list_elem_of_fmap. exists a. split; [|done].
      destruct Hhi_a as [->| ->]; [|done].
      assert (Types.max (Types.priceRange a) ≤ Types.min (Types.priceRange a)).
      { apply Hhi, elem_of_prices_of. eauto. }
      specialize (Hvalid a Ha). simpl in Hvalid. lia.
    + intros x (b & -> & Hb)%list_elem_of_fmap.
      apply Hhi, elem_of_prices_of. eauto.
Qed.

Lemma priceStats_bounds_witness :
  ([ann; bob] = [] →
   priceStats [ann; bob] = {| min := Finite 0; max := Finite 5000 |})
  ∧ ([ann; bob] ≠ [] →
     ∃ lo hi,
       priceStats [ann; bob] = {| min := Finite lo; max := Finite hi |}
       ∧ is_minimum lo (map (λ a, Types.min (Types.priceRange a)) [ann; bob])
       ∧ is_maximum hi (map (λ a, Types.max (Types.priceRange a)) [ann; bob])).
Proof. apply (priceStats_bounds [ann; bob]). repeat constructor; simpl; lia. Defined.

Example priceStats_sample :
  priceStats [ann; bob] = {| min := Finite 500; max := Finite 3000 |}.
Proof. reflexivity. Qed.

End PriceStatsFacts.

Section LocationFacts.
Import JsString Filters.

(** The order [String.le] that [sort] uses is the lexicographic order of
    the code units. *)
Lemma String_le_lex (s t : string) : String.le s t ↔ lex_le s t.
Proof.
  unfold String.le, String.leb. revert t.
  induction s as [|c s IH]; intros [|d t]; simpl.
  - split; [constructor | done].
  - split; [constructor | done].
  - split; [done | inversion 1].
  - unfold Ascii.compare.
    destruct (N.compare_spec (N_of_ascii c) (N_of_ascii d)) as [Heq|Hlt|Hgt].
    + assert (c = d) as ->.
      { by rewrite <- (ascii_N_embedding c), <- (ascii_N_embedding d), Heq. }
      rewrite IH. split; [by constructor|].
      inversion 1; subst; [lia | done].
    + split; [by constructor | done].
    + split; [done|]. inversion 1; subst; lia.
Qed.

Lemma StronglySorted_impl {A : Type} (R R' : relation A) (l : list A) :
  (∀ x y, R x y → R' x y) → StronglySorted R l → StronglySorted R' l.
Proof.
  intros HR. induction 1 as [|x l _ IH Hx]; constructor; [done|].
  eapply Forall_impl; [done | by intros y ?%HR].
Qed.

Lemma elem_of_Set_add (s : list string) (x y : string) :
  y ∈ Set_add s x ↔ y ∈ s ∨ y = x.
Proof.
  unfold Set_add. destruct (Js.mem x s) eqn:Hmem.
  - apply mem_spec in Hmem. split; [auto | by intros [?| ->]].
  - by rewrite elem_of_app, list_elem_of_singleton.
Qed.

Lemma NoDup_Set_add (s : list string) (x : string) :
  NoDup s → NoDup (Set_add s x).
Proof.
  intros Hs. unfold Set_add. destruct (Js.mem x s) eqn:Hmem; [done|].
  apply NoDup_app. split; [done|]. split; [|apply NoDup_singleton].
  intros y Hy ->%list_elem_of_singleton.
  apply mem_spec in Hy. congruence.
Qed.

Lemma elem_of_fold_Set_add (l s : list string) (y : string) :
  y ∈ fold_left Set_add l s ↔ y ∈ s ∨ y ∈ l.
Proof.
  revert s. induction l as [|x l IH]; intros s; simpl.
  - rewrite elem_of_nil. tauto.
  - rewrite IH, elem_of_Set_add, elem_of_cons. tauto.
Qed.

Lemma NoDup_fold_Set_add (l s : list string) :
  NoDup s → NoDup (fold_left Set_add l s).
Proof.
  revert s. induction l as [|x l IH]; intros s Hs; simpl; [done|].
  by apply IH, NoDup_Set_add.
Qed.

(** [new Set(l)] has the elements of [l], each once. *)
Lemma elem_of_new_Set (l : list string) (y : string) : y ∈ new_Set l ↔ y ∈ l.
Proof.
  unfold new_Set. rewrite elem_of_fold_Set_add, elem_of_nil. tauto.
Qed.

Lemma NoDup_new_Set (l : list string) : NoDup (new_Set l).
Proof. apply NoDup_fold_Set_add, NoDup_nil_2. Qed.

(** C7.  The facet of the locations is sorted in the ascending
    lexicographic order, has no location twice, and has exactly the
    locations of the records. *)
Theorem availableLocations_spec (artists : list Types.Artist) :
  StronglySorted lex_le (availableLocations artists)
  ∧ NoDup (availableLocations artists)
  ∧ ∀ s, s ∈ availableLocations artists
         ↔ ∃ a, a ∈ artists ∧ Types.location a = s.
Proof.
  unfold availableLocations, sort. split; [|split].
  - apply (StronglySorted_impl String.le); [by intros x y ?%String_le_lex|].
    apply StronglySorted_merge_sort; apply _.
  - rewrite merge_sort_Permutation. apply NoDup_new_Set.
  - intros s. rewrite merge_sort_Permutation, elem_of_new_Set.
    change (map Types.location artists) with (Types.location <$> artists).
    rewrite list_elem_of_fmap. split; intros (a & ? & ?); by exists a.
Qed.

Example availableLocations_sample :
  availableLocations [Samples.ann; Samples.bob; Samples.ann] = ["Boston"; "New York"].
Proof. reflexivity. Qed.

End LocationFacts.

(** ** The onboarding transformation *)

Section OnboardingFacts.
Import Types.

Lemma parseFeeRange_valid (feeRange : string) :
  0 ≤ min (parseFeeRange feeRange)
  ∧ min (parseFeeRange feeRange) ≤ max (parseFeeRange feeRange).
Proof. unfold parseFeeRange. repeat case_match; simpl; lia. Qed.

(** C10.  The record that the onboarding form yields has a price interval
    with a non-negative minimum that is at most its maximum, for every fee
    range of the form, a fee range that the form does not offer
    included. *)
Theorem transformFormDataToArtist_priceRange
    {File : Type} (createObjectURL : File → string) (now : Z)
    (formData : Form.ArtistFormData File) :
  let artist := transformFormDataToArtist createObjectURL now formData in
  0 ≤ min (priceRange artist) ∧ min (priceRange artist) ≤ max (priceRange artist).
Proof. apply parseFeeRange_valid. Qed.

Example parseFeeRange_unknown : parseFeeRange "free" = {| min := 0; max := 1000 |}.
Proof. reflexivity. Qed.

End OnboardingFacts.


(** * Further properties *)

(** ** The text that [parseQuery] reads *)

Section ParseQueryShape.
Import JsString Js GraphQL.

Lemma append_assoc (s t u : string) : (s +:+ t) +:+ u = s +:+ t +:+ u.
Proof. induction s as [|c s IH]; [done|]. by rewrite !append_cons, IH. Qed.

Lemma Substring_cons (needle s : string) (c : ascii) :
  Substring needle s → Substring needle (String c s).
Proof. intros (pre & post & ->). by exists (String c pre), post. Qed.

Lemma Substring_char_cons (c d : ascii) (s : string) :
  Substring (String c "") (String d s) ↔ c = d ∨ Substring (String c "") s.
Proof.
  split.
  - intros ([|e pre] & post & Heq); rewrite ?append_cons in Heq.
    + injection Heq as -> _. by left.
    + injection Heq as _ ->. right. by exists pre, post.
  - intros [->|H]; [by exists EmptyString, s | by apply Substring_cons].
Qed.

Lemma Substring_char_nil (c : ascii) : ¬ Substring (String c "") "".
Proof. by intros ([|e pre] & post & Heq). Qed.

Lemma Substring_char_app (c : ascii) (s t : string) :
  Substring (String c "") (s +:+ t)
  ↔ Substring (String c "") s ∨ Substring (String c "") t.
Proof.
  induction s as [|d s IH].
  - split; [by right | intros [?%Substring_char_nil|?]; done].
  - rewrite append_cons, !Substring_char_cons, IH. tauto.
Qed.

(** What [until_close] returns is followed by a closing brace. *)
Lemma until_close_Some (s body : string) :
  until_close s = Some body → ∃ rest, s = body +:+ "}" +:+ rest.
Proof.
  revert body. induction s as [|c s IH]; intros body; simpl; [done|].
  destruct (Ascii.eqb_spec c close_brace) as [->|Hc].
  - intros [= <-]. by exists s.
  - destruct (until_close s) as [t|]; [|done]. intros [= <-].
    destruct (IH t eq_refl) as [rest ->]. by exists rest.
Qed.

Lemma until_close_app (body rest : string) :
  ¬ Substring "}" body → until_close (body +:+ "}" +:+ rest) = Some body.
Proof.
  induction body as [|c body IH]; intros Hbody; [done|].
  rewrite append_cons. simpl.
  destruct (Ascii.eqb_spec c close_brace) as [->|Hc].
  - destruct Hbody. apply Substring_char_cons. by left.
  - rewrite IH; [done|]. intros H. apply Hbody, Substring_char_cons. by right.
Qed.

(** The capture of [fieldMatch] stands in the text between an opening and a
    closing brace. *)
Lemma fieldMatch_Some (query body : string) :
  fieldMatch query = Some body →
  ∃ pre rest, query = pre +:+ "{" +:+ body +:+ "}" +:+ rest.
Proof.
  induction query as [|c s IH]; simpl; [done|].
  assert (fieldMatch s = Some body →
          ∃ pre rest, String c s = pre +:+ "{" +:+ body +:+ "}" +:+ rest) as Hrec.
  { intros (pre & rest & ->)%IH. by exists (String c pre), rest. }
  destruct (Ascii.eqb_spec c open_brace) as [->|Hc]; [|done].
  destruct (until_close s) as [[|d t]|] eqn:Hclose; [done| |done].
  intros [= <-]. apply until_close_Some in Hclose as [rest ->].
  by exists EmptyString, rest.
Qed.

Lemma fieldMatch_app (pre body rest : string) :
  ¬ Substring "{" pre → body ≠ "" → ¬ Substring "}" body →
  fieldMatch (pre +:+ "{" +:+ body +:+ "}" +:+ rest) = Some body.
Proof.
  intros Hpre Hbody Hclose. induction pre as [|c pre IH].
  - change ("" +:+ "{" +:+ body +:+ "}" +:+ rest)
      with (String open_brace (body +:+ "}" +:+ rest)).
    simpl. rewrite until_close_app by done. by destruct body.
  - rewrite append_cons. simpl.
    destruct (Ascii.eqb_spec c open_brace) as [->|Hc].
    + destruct Hpre. apply Substring_char_cons. by left.
    + apply IH. intros H. apply Hpre, Substring_char_cons. by right.
Qed.

(** X1.  [parseQuery] reads nothing behind the first closing brace: the text
    before the first opening brace and the text behind the closing brace
    that follows it do not change the field list. *)
Theorem parseQuery_first_braces (pre body rest : string) :
  ¬ Substring "{" pre → body ≠ "" → ¬ Substring "}" body →
  parseQuery (pre +:+ "{" +:+ body +:+ "}" +:+ rest)
  = parseQuery ("{" +:+ body +:+ "}").
Proof.
  intros Hpre Hbody Hclose. unfold parseQuery.
  rewrite (fieldMatch_app pre body rest) by done.
  change ("{" +:+ body +:+ "}") with ("" +:+ "{" +:+ body +:+ "}" +:+ "").
  rewrite (fieldMatch_app "" body ""); [done| |done..].
  apply Substring_char_nil.
Qed.

Lemma parseQuery_first_braces_witness :
  parseQuery ("query Q " +:+ "{" +:+ " id " +:+ "}" +:+ " name }")
  = parseQuery ("{" +:+ " id " +:+ "}").
Proof.
  apply (parseQuery_first_braces "query Q " " id " " name }");
    [rewrite <- includes_false | | rewrite <- includes_false]; done.
Defined.

(** X2.  A document without an opening brace or without a closing brace has
    no field. *)
Theorem parseQuery_no_braces (query : string) :
  ¬ Substring "{" query ∨ ¬ Substring "}" query → parseQuery query = [].
Proof.
  intros Hno. unfold parseQuery.
  destruct (fieldMatch query) as [body|] eqn:Hmatch; [|done].
  apply fieldMatch_Some in Hmatch as (pre & rest & ->).
  destruct Hno as [[]|[]].
  - by exists pre, (body +:+ "}" +:+ rest).
  - exists (pre +:+ "{" +:+ body), rest. by rewrite !append_assoc.
Qed.

Lemma parseQuery_no_braces_witness : parseQuery "query { id" = [].
Proof.
  apply (parseQuery_no_braces "query { id"). right.
  rewrite <- includes_false. done.
Defined.

End ParseQueryShape.

Section ParseQueryFields.
Import JsString Js GraphQL.

Lemma trimStart_first (s : string) :
  trimStart s = "" ∨ ∃ c r, trimStart s = String c r ∧ is_white_space c = false.
Proof.
  induction s as [|c s IH]; simpl; [by left|].
  destruct (is_white_space c) eqn:Hc; [done|]. right. by exists c, s.
Qed.

Lemma trimEnd_cons (c : ascii) (s : string) :
  trimEnd (String c s) = String c (trimEnd s)
  ∨ (trimEnd (String c s) = "" ∧ is_white_space c = true).
Proof.
  simpl. destruct (trimEnd s); [|by left].
  destruct (is_white_space c); [by right | by left].
Qed.

Lemma trimEnd_trimEnd (s : string) : trimEnd (trimEnd s) = trimEnd s.
Proof.
  induction s as [|c s IH]; [done|]. simpl.
  destruct (trimEnd s) as [|d t] eqn:Ht.
  - destruct (is_white_space c) eqn:Hc; simpl; [done | by rewrite Hc].
  - change (trimEnd (String c (String d t)))
      with (match trimEnd (String d t) with
            | EmptyString =>
                if is_white_space c then EmptyString else String c EmptyString
            | u => String c u
            end).
    by rewrite IH.
Qed.

Lemma trimStart_trimEnd (c : ascii) (r : string) :
  is_white_space c = false →
  trimStart (trimEnd (String c r)) = trimEnd (String c r).
Proof.
  intros Hc. destruct (trimEnd_cons c r) as [H|[_ ?]]; [|congruence].
  rewrite H. simpl. by rewrite Hc.
Qed.

Lemma trim_trim (s : string) : trim (trim s) = trim s.
Proof.
  unfold trim. destruct (trimStart_first s) as [H|(c & r & H & Hc)]; rewrite H.
  - done.
  - rewrite trimStart_trimEnd by done. apply trimEnd_trimEnd.
Qed.

Lemma occurs_trimStart (c : ascii) (s : string) :
  Substring (String c "") (trimStart s) → Substring (String c "") s.
Proof.
  induction s as [|d s IH]; simpl; [done|].
  destruct (is_white_space d); [|done]. intros ?%IH. by apply Substring_cons.
Qed.

Lemma occurs_trimEnd (c : ascii) (s : string) :
  Substring (String c "") (trimEnd s) → Substring (String c "") s.
Proof.
  induction s as [|d s IH]; [done|].
  destruct (trimEnd_cons d s) as [->|[-> _]].
  - rewrite !Substring_char_cons. tauto.
  - by intros ?%Substring_char_nil.
Qed.

Lemma occurs_trim (c : ascii) (s : string) :
  Substring (String c "") (trim s) → Substring (String c "") s.
Proof. intros ?%occurs_trimEnd. by apply occurs_trimStart. Qed.

Lemma occurs_strip_brace_tail (c : ascii) (s : string) :
  Substring (String c "") (strip_brace_tail s) → Substring (String c "") s.
Proof.
  induction s as [|d s IH].
  - simpl. by destruct (brace_tail "").
  - change (strip_brace_tail (String d s))
      with (if brace_tail (String d s) then EmptyString
            else String d (strip_brace_tail s)).
    destruct (brace_tail (String d s)); [by intros ?%Substring_char_nil|].
    rewrite !Substring_char_cons. tauto.
Qed.

Lemma occurs_rev_app (c : ascii) (s t : string) :
  Substring (String c "") (String.rev_app s t)
  ↔ Substring (String c "") s ∨ Substring (String c "") t.
Proof.
  revert t. induction s as [|d s IH]; intros t; simpl.
  - split; [by right | intros [?%Substring_char_nil|?]; done].
  - rewrite IH, !Substring_char_cons. tauto.
Qed.

(** A line of [split_lines] has no line feed, and its code units are code
    units of the text. *)
Lemma occurs_split_lines_go (cur s line : string) (c : ascii) :
  ¬ Substring (String LF "") cur →
  line ∈ split_lines_go cur s →
  Substring (String c "") line →
  c ≠ LF ∧ (Substring (String c "") cur ∨ Substring (String c "") s).
Proof.
  revert cur. induction s as [|d s IH]; intros cur Hcur; simpl.
  - intros ->%list_elem_of_singleton [Hc|?%Substring_char_nil]%occurs_rev_app; [|done].
    split; [by intros -> | by left].
  - destruct (Ascii.eqb_spec d LF) as [->|Hd].
    + intros [->|Hline]%elem_of_cons Hc.
      * apply occurs_rev_app in Hc as [Hc|?%Substring_char_nil]; [|done].
        split; [by intros -> | by left].
      * destruct (IH "" (Substring_char_nil LF) Hline Hc)
          as [? [?%Substring_char_nil|?]]; [done|].
        split; [done|]. right. by apply Substring_cons.
    + intros Hline Hc.
      destruct (IH (String d cur)) as [? Hor]; [|done..|].
      { rewrite Substring_char_cons. intros [?|?]; [by subst | done]. }
      split; [done|]. rewrite Substring_char_cons in Hor.
      rewrite Substring_char_cons. tauto.
Qed.

(** X3.  A field that [parseQuery] extracts has no white space at its ends,
    no closing brace and no line feed. *)
Theorem parseQuery_field_shape (query field : string) :
  field ∈ parseQuery query →
  trim field = field
  ∧ ¬ Substring "}" field
  ∧ ¬ Substring (String LF "") field.
Proof.
  unfold parseQuery.
  destruct (fieldMatch query) as [body|] eqn:Hmatch; [|by intros ?%elem_of_nil].
  apply fieldMatch_no_brace in Hmatch.
  change (map ?f ?l) with (f <$> l).
  intros (line & -> & Hline)%list_elem_of_fmap.
  apply list_elem_of_In, filter_In in Hline as [Hline _].
  apply list_elem_of_In, list_elem_of_fmap in Hline as (raw & -> & Hraw).
  assert (∀ c, Substring (String c "") (trim (strip_brace_tail (trim raw))) →
               c ≠ LF ∧ Substring (String c "") body) as Hchars.
  { intros c Hc%occurs_trim%occurs_strip_brace_tail%occurs_trim.
    destruct (occurs_split_lines_go "" body raw c (Substring_char_nil LF) Hraw Hc)
      as [? [?%Substring_char_nil|?]]; done. }
  split; [apply trim_trim|]. split.
  - intros Hc. by apply Hchars in Hc as [_ ?].
  - intros Hc. by apply Hchars in Hc as [? _].
Qed.

Lemma parseQuery_field_shape_witness :
  trim "id" = "id" ∧ ¬ Substring "}" "id" ∧ ¬ Substring (String LF "") "id".
Proof.
  apply (parseQuery_field_shape "{ id }" "id"). apply list_elem_of_here.
Defined.

End ParseQueryFields.

(** ** The resolvers and their responses *)

Section ResolverFacts.
Import JsString Js GraphQL.

Lemma filterM_Ok {A : Type} (f : A → result bool) (g : A → bool) (l : list A) :
  (∀ x, f x = Ok (g x)) → filterM f l = Ok (List.filter g l).
Proof.
  intros Hf. induction l as [|x l IH]; simpl; [done|].
  rewrite Hf, IH. simpl. by destruct (g x).
Qed.

Lemma filterM_Throw {A : Type} (f : A → result bool) (l : list A) (e : thrown) :
  l ≠ [] → (∀ x, f x = Throw e) → filterM f l = Throw e.
Proof. intros Hl Hf. destruct l as [|x l]; [done|]. simpl. by rewrite Hf. Qed.

(** With a string for the location the resolver does not throw: it keeps the
    records whose location has the string in it, whatever the case of the
    letters. *)
Lemma artistsByLocation_string
    (data : list Types.Artist) (args : gmap string value) (s : string) :
  arg args "location" = VString s →
  resolvers.artistsByLocation data args
  = Ok (Records (List.filter
                   (λ a, includes (toLowerCase (Types.location a)) (toLowerCase s))
                   data)).
Proof.
  intros Harg. unfold resolvers.artistsByLocation. rewrite Harg.
  by rewrite (filterM_Ok _
                (λ a, includes (toLowerCase (Types.location a)) (toLowerCase s))).
Qed.

Lemma call_toLowerCase_not_string (receiver : string) (v : value) :
  (∀ s, v ≠ VString s) → ∃ e, call_toLowerCase receiver v = Throw e.
Proof. intros Hv. destruct v as [| |b|n|s|l|p|m]; try by eexists. by destruct (Hv s). Qed.

Lemma artistsByLocation_not_string
    (data : list Types.Artist) (args : gmap string value) :
  data ≠ [] → (∀ s, arg args "location" ≠ VString s) →
  ∃ e, resolvers.artistsByLocation data args = Throw e.
Proof.
  intros Hdata Harg. unfold resolvers.artistsByLocation.
  destruct (call_toLowerCase_not_string "args.location" _ Harg) as [e He].
  exists e. rewrite (filterM_Throw _ _ e); [done..|].
  intros x. simpl. by rewrite He.
Qed.

Lemma artistsByLocation_empty (args : gmap string value) :
  resolvers.artistsByLocation [] args = Ok (Records []).
Proof. reflexivity. Qed.

Lemma errors_graphqlRequest (artists : list Types.Artist) (q : GraphQLQuery) :
  errors (graphqlRequest artists q) = None ↔ ∃ r, try_block artists q = Ok r.
Proof.
  destruct (try_block artists q) as [r|e] eqn:Htry.
  - apply graphqlRequest_returns in Htry as [-> ->]. split; [by exists r | done].
  - unfold graphqlRequest. rewrite Htry. simpl. split; [done | by intros [r ?]].
Qed.

Lemma try_block_Ok (artists : list Types.Artist) (q : GraphQLQuery) :
  (∃ r, try_block artists q = Ok r)
  ↔ operation_of (query q) ≠ "artistsByLocation"
    ∨ ∃ d, resolvers.artistsByLocation artists (default ∅ (variables q)) = Ok d.
Proof.
  unfold try_block. rewrite resolvers_lookup_operation_of. unfold operation_of.
  destruct (includes (query q) "artist("); simpl.
  { split; [by left | intros _; by destruct (List.find _ _); eexists]. }
  destruct (includes (query q) "artistsByCategory"); simpl.
  { split; [by left | intros _; by eexists]. }
  destruct (includes (query q) "artistsByLocation"); simpl.
  - destruct (resolvers.artistsByLocation _ _) as [[l|a|]|e]; simpl.
    + split; [intros _; right; by eexists | intros _; by eexists].
    + split; [intros _; right; by eexists | intros _; by eexists].
    + split; [intros _; right; by eexists | intros _; by eexists].
    + split; [by intros [r ?] | by intros [?|[d ?]]].
  - split; [by left | intros _; by eexists].
Qed.

(** X4.  A request fails in one case only: the text selects the fetch by
    location, the record set is not empty, and the variables give no string
    for the location. *)
Theorem graphqlRequest_fails_iff (artists : list Types.Artist) (q : GraphQLQuery) :
  errors (graphqlRequest artists q) ≠ None
  ↔ operation_of (query q) = "artistsByLocation"
    ∧ artists ≠ []
    ∧ ∀ s, arg (default ∅ (variables q)) "location" ≠ VString s.
Proof.
  rewrite errors_graphqlRequest, try_block_Ok. split.
  - intros Hfail.
    destruct (decide (operation_of (query q) = "artistsByLocation")) as [Hop|Hop];
      [|destruct Hfail; by left].
    split; [done|]. split.
    + intros ->. apply Hfail. right. eexists. apply artistsByLocation_empty.
    + intros s Hs. apply Hfail. right. eexists. by apply artistsByLocation_string.
  - intros (Hop & Hne & Harg) [?|[d Hd]]; [done|].
    destruct (artistsByLocation_not_string artists _ Hne Harg) as [e He].
    congruence.
Qed.

End ResolverFacts.

Section FetchFacts.
Import JsString Js GraphQL.

Lemma strict_equal_spec (x : string) (v : value) :
  strict_equal x v = true ↔ v = VString x.
Proof.
  destruct v as [| |b|n|s|l|p|m]; simpl; try by split.
  rewrite String.eqb_eq. split; [by intros -> | by intros [= ->]].
Qed.

Lemma find_None {A : Type} (f : A → bool) (l : list A) :
  (∀ x, x ∈ l → f x = false) → List.find f l = None.
Proof.
  induction l as [|x l IH]; intros Hf; simpl; [done|].
  rewrite Hf by apply list_elem_of_here.
  apply IH. intros y Hy. by apply Hf, list_elem_of_further.
Qed.

Lemma find_first {A : Type} (f : A → bool) (l1 l2 : list A) (x : A) :
  (∀ y, y ∈ l1 → f y = false) → f x = true →
  List.find f (l1 ++ x :: l2) = Some x.
Proof.
  induction l1 as [|y l1 IH]; intros Hl1 Hx; simpl; [by rewrite Hx|].
  rewrite Hl1 by apply list_elem_of_here.
  apply IH; [|done]. intros z Hz. by apply Hl1, list_elem_of_further.
Qed.

Lemma try_block_artist (artists : list Types.Artist) (q : GraphQLQuery) :
  Substring "artist(" (query q) →
  try_block artists q
  = Ok (match List.find
                (λ a, strict_equal (Types.id a)
                        (arg (default ∅ (variables q)) "id"))
                artists with
        | Some a =>
            {| data := PObject (project (parseQuery (query q)) (artist_object a));
               errors := None |}
        | None => {| data := PNull; errors := None |}
        end).
Proof.
  intros Hop%includes_spec. unfold try_block.
  rewrite resolvers_lookup_operation_of, Hop. simpl.
  by destruct (List.find _ _).
Qed.

(** X5.  A fetch by identifier for which no record has the given identifier
    returns [null] as its data and no error; so does a fetch whose variables
    give no identifier. *)
Theorem fetch_by_id_missing (artists : list Types.Artist) (q : GraphQLQuery) :
  Substring "artist(" (query q) →
  (∀ a, a ∈ artists → arg (default ∅ (variables q)) "id" ≠ VString (Types.id a)) →
  graphqlRequest artists q = {| data := PNull; errors := None |}.
Proof.
  intros Hop Hid. unfold graphqlRequest. rewrite try_block_artist by done.
  rewrite find_None; [done|]. intros a Ha.
  destruct (strict_equal _ _) eqn:Heq; [|done].
  apply strict_equal_spec in Heq. by destruct (Hid a Ha).
Qed.

Lemma fetch_by_id_missing_witness :
  graphqlRequest [Samples.ann; Samples.bob]
    {| query := queries.getArtistById; variables := None |}
  = {| data := PNull; errors := None |}.
Proof.
  apply (fetch_by_id_missing [Samples.ann; Samples.bob]
           {| query := queries.getArtistById; variables := None |}).
  - apply includes_spec. reflexivity.
  - intros a _. discriminate.
Defined.

(** X6.  A fetch by identifier returns the projection of the first record
    that has the identifier, also when a later record has it too. *)
Theorem fetch_by_id_first
    (before after : list Types.Artist) (a : Types.Artist) (q : GraphQLQuery) :
  Substring "artist(" (query q) →
  arg (default ∅ (variables q)) "id" = VString (Types.id a) →
  (∀ b, b ∈ before → Types.id b ≠ Types.id a) →
  graphqlRequest (before ++ a :: after) q
  = {| data := PObject (project (parseQuery (query q)) (artist_object a));
       errors := None |}.
Proof.
  intros Hop Hid Hbefore. unfold graphqlRequest. rewrite try_block_artist by done.
  rewrite Hid, (find_first _ before after a); [done| |].
  - intros b Hb. destruct (strict_equal _ _) eqn:Heq; [|done].
    apply strict_equal_spec in Heq. injection Heq as Heq.
    by destruct (Hbefore b Hb).
  - by apply strict_equal_spec.
Qed.

Lemma fetch_by_id_first_witness :
  graphqlRequest ([Samples.ann] ++ Samples.bob :: [Samples.bob])
    {| query := "{
         artist(id: $id)
         name }"; variables := Some {[ "id" := VString "2" ]} |}
  = {| data :=
         PObject
           (project (parseQuery "{
         artist(id: $id)
         name }") (artist_object Samples.bob));
       errors := None |}.
Proof.
  apply (fetch_by_id_first [Samples.ann] [Samples.bob] Samples.bob).
  - apply includes_spec. reflexivity.
  - reflexivity.
  - intros b ->%list_elem_of_singleton. discriminate.
Defined.

(** X7.  A fetch by category whose variables give no string for the category
    returns no record, and no error. *)
Theorem artistsByCategory_not_string
    (data : list Types.Artist) (args : gmap string value) :
  (∀ s, arg args "category" ≠ VString s) →
  resolvers.artistsByCategory data args = Ok (Records []).
Proof.
  intros Harg. unfold resolvers.artistsByCategory. do 2 f_equal.
  induction data as [|a data IH]; simpl; [done|].
  assert (Array_includes (Types.categories a) (arg args "category") = false) as ->;
    [|done].
  induction (Types.categories a) as [|c l IHl]; simpl; [done|].
  destruct (strict_equal c _) eqn:Heq; [|done].
  apply strict_equal_spec in Heq. by destruct (Harg c).
Qed.

Lemma artistsByCategory_not_string_witness :
  resolvers.artistsByCategory [Samples.ann; Samples.bob] ∅ = Ok (Records []).
Proof.
  apply (artistsByCategory_not_string [Samples.ann; Samples.bob] ∅).
  intros s. discriminate.
Defined.

End FetchFacts.

Section ResolverFilterFacts.
Import JsString Js GraphQL.

Lemma includes_empty (s : string) : includes s "" = true.
Proof. apply includes_spec. by exists EmptyString, s. Qed.

(** The callback of the filter engine when the price interval of the
    filters overlaps the price interval of the record. *)
Lemma filter_callback_overlap (cfg : Filters.FilterConfig) (a : Types.Artist) :
  Types.min (Types.priceRange a) ≤ (Filters.price cfg).2 →
  (Filters.price cfg).1 ≤ Types.max (Types.priceRange a) →
  Filters.filter_callback cfg a
  = (((Filters.category cfg =? "all")%string
      || Array_includes (Types.categories a) (VString (Filters.category cfg)))
     && ((Filters.location cfg =? "")%string
         || includes (toLowerCase (Types.location a))
              (toLowerCase (Filters.location cfg)))).
Proof.
  intros Hlo Hhi. unfold Filters.filter_callback. simpl.
  assert ((Types.min (Types.priceRange a) >? (Filters.price cfg).2) = false) as ->
    by (rewrite Z.gtb_ltb; by apply Z.ltb_ge).
  assert ((Types.max (Types.priceRange a) <? (Filters.price cfg).1) = false) as ->
    by (by apply Z.ltb_ge).
  destruct (_ =? "all")%string, (Array_includes _ _), (_ =? "")%string,
    (includes _ _); done.
Qed.

(** X8.  On records whose prices overlap the price interval of the filters,
    the fetch by location returns the records that the filter engine returns
    for the same location with no constraint on the category. *)
Theorem artistsByLocation_as_filter
    (data : list Types.Artist) (args : gmap string value) (s : string) (lo hi : Z) :
  Forall (λ a, Types.min (Types.priceRange a) ≤ hi
               ∧ lo ≤ Types.max (Types.priceRange a)) data →
  arg args "location" = VString s →
  resolvers.artistsByLocation data args
  = Ok (Records (Filters.filteredArtists data
                   {| Filters.category := "all"; Filters.location := s;
                      Filters.price := (lo, hi) |})).
Proof.
  intros Hdata Harg. rewrite Forall_forall in Hdata.
  rewrite (artistsByLocation_string data args s) by done.
  do 2 f_equal. apply filter_ext_in. intros a [Hlo Hhi]%list_elem_of_In%Hdata.
  rewrite filter_callback_overlap by done. simpl.
  destruct (String.eqb_spec s "") as [->|]; [|done]. apply includes_empty.
Qed.

Lemma artistsByLocation_as_filter_witness :
  resolvers.artistsByLocation [Samples.ann; Samples.bob]
    {[ "location" := VString "bOS" ]}
  = Ok (Records (Filters.filteredArtists [Samples.ann; Samples.bob]
                   {| Filters.category := "all"; Filters.location := "bOS";
                      Filters.price := (0, 5000) |})).
Proof.
  apply (artistsByLocation_as_filter [Samples.ann; Samples.bob]
           {[ "location" := VString "bOS" ]} "bOS" 0 5000).
  - repeat constructor; simpl; lia.
  - reflexivity.
Defined.

(** X9.  On records whose prices overlap the price interval of the filters,
    the fetch by a category other than [all] returns the records that the
    filter engine returns for this category with no constraint on the
    location. *)
Theorem artistsByCategory_as_filter
    (data : list Types.Artist) (args : gmap string value) (c : string) (lo hi : Z) :
  Forall (λ a, Types.min (Types.priceRange a) ≤ hi
               ∧ lo ≤ Types.max (Types.priceRange a)) data →
  arg args "category" = VString c →
  c ≠ "all" →
  resolvers.artistsByCategory data args
  = Ok (Records (Filters.filteredArtists data
                   {| Filters.category := c; Filters.location := "";
                      Filters.price := (lo, hi) |})).
Proof.
  intros Hdata Harg Hc. rewrite Forall_forall in Hdata.
  unfold resolvers.artistsByCategory. rewrite Harg.
  do 2 f_equal. apply filter_ext_in. intros a [Hlo Hhi]%list_elem_of_In%Hdata.
  rewrite filter_callback_overlap by done. simpl.
  apply String.eqb_neq in Hc. rewrite Hc. simpl. by rewrite andb_true_r.
Qed.

Lemma artistsByCategory_as_filter_witness :
  resolvers.artistsByCategory [Samples.ann; Samples.bob]
    {[ "category" := VString "dj" ]}
  = Ok (Records (Filters.filteredArtists [Samples.ann; Samples.bob]
                   {| Filters.category := "dj"; Filters.location := "";
                      Filters.price := (0, 5000) |})).
Proof.
  apply (artistsByCategory_as_filter [Samples.ann; Samples.bob]
           {[ "category" := VString "dj" ]} "dj" 0 5000).
  - repeat constructor; simpl; lia.
  - reflexivity.
  - discriminate.
Defined.

End ResolverFilterFacts.

Section ProjectionShape.
Import JsString Js GraphQL.

Lemma keys_define (o : object) (key : string) (v : value) :
  map fst (define o key v) = Filters.Set_add (map fst o) key.
Proof.
  unfold Filters.Set_add. induction o as [|[k w] o IH]; simpl; [done|].
  destruct (String.eqb_spec key k) as [->|Hne]; simpl; [done|].
  rewrite IH. by destruct (mem key (map fst o)).
Qed.

Lemma keys_copy_fields (o : object) (fields : list string) (filtered : object) :
  map fst (fold_left (copy_field o) fields filtered)
  = fold_left Filters.Set_add
      (List.filter (λ field, has o field && assignable field) fields)
      (map fst filtered).
Proof.
  revert filtered. induction fields as [|f fields IH]; intros filtered; simpl; [done|].
  rewrite IH. unfold copy_field, set, assignable.
  destruct (has o f); simpl; [|done].
  destruct (f =? "__proto__")%string; simpl; [done|]. by rewrite keys_define.
Qed.

(** X10.  The names of the properties of a projection are the requested
    fields that the record has, each once, in the order in which the field
    list names them first. *)
Theorem project_keys (fields : list string) (o : object) :
  map fst (project fields o)
  = Filters.new_Set (List.filter (λ field, has o field && assignable field) fields).
Proof. apply (keys_copy_fields o fields []). Qed.

(** X11.  A field of a record is in the projection exactly when the field
    list names it, and then with the value that the record has for it. *)
Theorem project_artist_field
    (a : Types.Artist) (fields : list string) (key : string) (v : value) :
  own (artist_object a) key = Some v →
  (key ∈ fields → own (project fields (artist_object a)) key = Some v)
  ∧ (key ∉ fields → own (project fields (artist_object a)) key = None).
Proof.
  intros Hown. rewrite own_project.
  assert (has (artist_object a) key = true) as -> by (unfold has; by rewrite Hown).
  assert (get (artist_object a) key = v) as -> by (unfold get; by rewrite Hown).
  assert (assignable key = true) as ->.
  { unfold assignable. destruct (String.eqb_spec key "__proto__") as [->|]; done. }
  split.
  - intros Hin%mem_spec. by rewrite Hin.
  - intros Hin. destruct (mem key fields) eqn:Hmem; [|done].
    by apply mem_spec in Hmem.
Qed.

Lemma project_artist_field_witness :
  ("name" ∈ ["id"; "name"] →
   own (project ["id"; "name"] (artist_object Samples.ann)) "name"
   = Some (VString "Ann"))
  ∧ ("name" ∉ ["id"; "name"] →
     own (project ["id"; "name"] (artist_object Samples.ann)) "name" = None).
Proof.
  apply (project_artist_field Samples.ann ["id"; "name"] "name" (VString "Ann")).
  reflexivity.
Defined.

End ProjectionShape.

(** ** The filter engine and its controls *)

Section FilterEngineFacts.
Import JsString Filters.

Lemma filter_all {A : Type} (f : A → bool) (l : list A) :
  (∀ x, x ∈ l → f x = true) → List.filter f l = l.
Proof.
  induction l as [|x l IH]; intros Hf; simpl; [done|].
  rewrite Hf by apply list_elem_of_here. f_equal.
  apply IH. intros y Hy. by apply Hf, list_elem_of_further.
Qed.

(** X12.  The case of the letters of the location of the filters does not
    matter: two configurations whose locations have the same lower case, and
    the same category and price interval, give the same result. *)
Theorem filteredArtists_location_case
    (artists : list Types.Artist) (cfg cfg' : FilterConfig) :
  category cfg' = category cfg →
  price cfg' = price cfg →
  toLowerCase (location cfg') = toLowerCase (location cfg) →
  filteredArtists artists cfg' = filteredArtists artists cfg.
Proof.
  intros Hcategory Hprice Hlocation. unfold filteredArtists.
  apply filter_ext. intros a. unfold filter_callback.
  rewrite Hcategory, Hprice, Hlocation.
  assert ((location cfg' =? "")%string = (location cfg =? "")%string) as ->; [|done].
  destruct (String.eqb_spec (location cfg) "") as [Heq|Hne].
  - rewrite Heq in Hlocation. by destruct (location cfg').
  - destruct (location cfg'); [|done]. by destruct (location cfg).
Qed.

Lemma filteredArtists_location_case_witness :
  filteredArtists [Samples.ann; Samples.bob]
    {| category := "all"; location := "NEW york"; price := (0, 5000) |}
  = filteredArtists [Samples.ann; Samples.bob]
      {| category := "all"; location := "New York"; price := (0, 5000) |}.
Proof.
  by apply (filteredArtists_location_case [Samples.ann; Samples.bob]
              {| category := "all"; location := "New York"; price := (0, 5000) |}
              {| category := "all"; location := "NEW york"; price := (0, 5000) |}).
Defined.

(** X13.  After [clearFilters] the filter returns the whole record set,
    provided that no record starts above 5000 or ends below 0. *)
Theorem filteredArtists_cleared
    (artists : list Types.Artist) (prev : FilterConfig) :
  Forall (λ a, Types.min (Types.priceRange a) ≤ 5000
               ∧ 0 ≤ Types.max (Types.priceRange a)) artists →
  filteredArtists artists (FilterControls.clearFilters prev) = artists.
Proof.
  intros Hartists. rewrite Forall_forall in Hartists.
  apply filter_all. intros a [Hlo Hhi]%Hartists.
  by rewrite filter_callback_overlap.
Qed.

Lemma filteredArtists_cleared_witness :
  filteredArtists [Samples.ann; Samples.bob]
    (FilterControls.clearFilters Samples.narrow)
  = [Samples.ann; Samples.bob].
Proof.
  apply (filteredArtists_cleared [Samples.ann; Samples.bob] Samples.narrow).
  repeat constructor; simpl; lia.
Defined.

(** X14.  The bounds of the price facet of a record set that is not empty
    are in order, and the filter with these bounds as its price interval and
    no other constraint returns the whole record set. *)
Theorem priceStats_span (artists : list Types.Artist) :
  artists ≠ [] →
  ∃ lo hi,
    priceStats artists = {| min := Finite lo; max := Finite hi |}
    ∧ lo ≤ hi
    ∧ filteredArtists artists
        {| category := "all"; location := ""; price := (lo, hi) |}
      = artists.
Proof.
  intros Hne.
  assert (prices_of artists ≠ []) as Hprices by (by destruct artists).
  destruct (Math_min_spec _ Hprices) as (lo & Hmin & Hlo_in & Hlo).
  destruct (Math_max_spec _ Hprices) as (hi & Hmax & Hhi_in & Hhi).
  exists lo, hi. split; [|split].
  - unfold priceStats. destruct artists as [|a artists]; [done|].
    change (length (a :: artists) =? 0)%nat with false. cbv iota zeta.
    by rewrite Hmin, Hmax.
  - by apply Hhi.
  - apply filter_all. intros a Ha. rewrite filter_callback_overlap; [done| |]; simpl.
    + apply Hhi, elem_of_prices_of. eauto.
    + apply Hlo, elem_of_prices_of. eauto.
Qed.

Lemma priceStats_span_witness :
  ∃ lo hi,
    priceStats [Samples.ann; Samples.bob]
    = {| min := Finite lo; max := Finite hi |}
    ∧ lo ≤ hi
    ∧ filteredArtists [Samples.ann; Samples.bob]
        {| category := "all"; location := ""; price := (lo, hi) |}
      = [Samples.ann; Samples.bob].
Proof. by apply (priceStats_span [Samples.ann; Samples.bob]). Defined.

(** X15.  The facet of the locations depends on the set of the locations of
    the records only: record sets with the same locations, in any order and
    any number, have the same facet. *)
Theorem availableLocations_same_locations (artists artists' : list Types.Artist) :
  (∀ s, s ∈ map Types.location artists ↔ s ∈ map Types.location artists') →
  availableLocations artists = availableLocations artists'.
Proof.
  intros Hsame. unfold availableLocations, sort.
  apply (Sorted_unique String.le).
  - apply Sorted_merge_sort; apply _.
  - apply Sorted_merge_sort; apply _.
  - rewrite !merge_sort_Permutation.
    apply NoDup_Permutation; [apply NoDup_new_Set..|].
    intros s. by rewrite !elem_of_new_Set.
Qed.

Lemma availableLocations_same_locations_witness :
  availableLocations [Samples.ann; Samples.bob]
  = availableLocations [Samples.bob; Samples.ann; Samples.bob].
Proof.
  apply (availableLocations_same_locations [Samples.ann; Samples.bob]
           [Samples.bob; Samples.ann; Samples.bob]).
  intros s. simpl. rewrite !elem_of_cons, elem_of_nil. tauto.
Defined.

End FilterEngineFacts.

(** ** The shared state, the onboarding form and the listing page *)

Section OnboardingIdFacts.
Import Types.

Lemma norm_not_nil (d : Decimal.int) :
  Decimal.norm d ≠ Decimal.Pos Decimal.Nil ∧ Decimal.norm d ≠ Decimal.Neg Decimal.Nil.
Proof.
  destruct d as [u|u]; simpl.
  - split; [|done]. intros [= H]. by apply unorm_nonnil in H.
  - destruct (Decimal.nzhead u); done.
Qed.

(** Different integers have different decimal digits. *)
Lemma Number_toString_inj (n m : Z) : Number_toString n = Number_toString m → n = m.
Proof.
  unfold Number_toString. intros Heq. apply DecimalZ.to_int_inj.
  assert (∀ z, NilZero.int_of_string (NilZero.string_of_int (Z.to_int z))
               = Some (Z.to_int z)) as Hparse.
  { intros z. apply NilZero.isi.
    - rewrite <- (DecimalZ.of_to z), DecimalZ.to_of. apply norm_not_nil.
    - rewrite <- (DecimalZ.of_to z), DecimalZ.to_of. apply norm_not_nil. }
  pose proof (Hparse n) as Hn. rewrite Heq, Hparse in Hn. by injection Hn.
Qed.

(** X16.  Two records of the onboarding form have the same identifier
    exactly when they were made in the same millisecond, whatever the forms
    hold. *)
Theorem transformFormDataToArtist_id
    {File : Type} (createObjectURL : File → string) (now now' : Z)
    (formData formData' : Form.ArtistFormData File) :
  id (transformFormDataToArtist createObjectURL now formData)
  = id (transformFormDataToArtist createObjectURL now' formData')
  ↔ now = now'.
Proof.
  simpl. split; [|by intros ->].
  intros Heq%(inj (String.app "temp-")). by apply Number_toString_inj.
Qed.

End OnboardingIdFacts.

Section AppContextFacts.
Import AppContext.

Lemma filter_app_one {A : Type} (f : A → bool) (l : list A) (x : A) :
  List.filter f (l ++ [x]) = List.filter f l ++ (if f x then [x] else []).
Proof. rewrite List.filter_app. simpl. by destruct (f x). Qed.

(** X17.  Adding a notification and removing the identifier that it got
    gives the state back, provided that no older notification has this
    identifier. *)
Theorem add_remove_notification
    (now later : Z) (state : AppState) (payload : New.Notification) :
  Forall (λ n, id n ≠ Types.Number_toString now) (notifications state) →
  appReducer later (appReducer now state (ADD_NOTIFICATION payload))
    (REMOVE_NOTIFICATION (Types.Number_toString now))
  = state.
Proof.
  intros Hfresh. rewrite Forall_forall in Hfresh.
  destruct state as [a l f t ns]. unfold appReducer. simpl in *. f_equal.
  rewrite filter_app_one. simpl. rewrite String.eqb_refl. simpl.
  rewrite app_nil_r. apply filter_all. intros n Hn%Hfresh.
  apply negb_true_iff. by apply String.eqb_neq.
Qed.

Lemma add_remove_notification_witness :
  appReducer 2000 (appReducer 1000 initialState
                     (ADD_NOTIFICATION {| New.type := info; New.message := "Hello" |}))
    (REMOVE_NOTIFICATION (Types.Number_toString 1000))
  = initialState.
Proof.
  apply (add_remove_notification 1000 2000 initialState
           {| New.type := info; New.message := "Hello" |}).
  constructor.
Defined.

(** X18.  Removing an identifier keeps exactly the notifications with
    another identifier, in their order, and every notification that has the
    identifier goes, also when several have it; the rest of the state stays
    as it is. *)
Theorem remove_notification (now : Z) (state : AppState) (key : string) :
  let state' := appReducer now state (REMOVE_NOTIFICATION key) in
  Filters.selection (λ n, id n ≠ key) (notifications state) (notifications state')
  ∧ artists state' = artists state
  ∧ isLoading state' = isLoading state
  ∧ filters state' = filters state
  ∧ theme state' = theme state.
Proof.
  simpl. split; [|done]. apply selection_filter. intros n.
  rewrite negb_true_iff. apply String.eqb_neq.
Qed.

(** X19.  Two updates of the filters in a row are one update with the keys
    of both, the later update winning on a key that both name; and clearing
    the filters afterwards gives the initial filters, as if no update had
    been made. *)
Theorem set_filters_compose
    (now now' now'' : Z) (state : AppState)
    (first second : FilterControls.PartialFilterConfig) :
  appReducer now' (appReducer now state (SET_FILTERS first)) (SET_FILTERS second)
  = appReducer now state
      (SET_FILTERS
         {| FilterControls.category :=
              FilterControls.category second ∪ FilterControls.category first;
            FilterControls.location :=
              FilterControls.location second ∪ FilterControls.location first;
            FilterControls.price :=
              FilterControls.price second ∪ FilterControls.price first |})
  ∧ appReducer now''
      (appReducer now' (appReducer now state (SET_FILTERS first)) (SET_FILTERS second))
      CLEAR_FILTERS
    = appReducer now state CLEAR_FILTERS
  ∧ filters (appReducer now state CLEAR_FILTERS) = filters initialState.
Proof.
  split; [|done]. unfold appReducer, FilterControls.spread. simpl. do 2 f_equal.
  - by destruct (FilterControls.category second), (FilterControls.category first).
  - by destruct (FilterControls.location second), (FilterControls.location first).
  - by destruct (FilterControls.price second), (FilterControls.price first).
Qed.

End AppContextFacts.

Section PagesFacts.
Import AppContext Pages.


Lemma isTemporaryArtist_transform
    {File : Type} (createObjectURL : File → string) (now : Z)
    (values : Types.Form.ArtistFormData File) :
  isTemporaryArtist (Types.transformFormDataToArtist createObjectURL now values) = true.
Proof.
  unfold isTemporaryArtist. apply startsWith_spec. simpl. by eexists.
Qed.


(** X21.  The records that the fallback of the listing page loads replace the
    record set but for the records of this session: a record that the
    onboarding form has appended is still in the record set, behind the
    loaded records and the older records of the session, whatever the state
    is on which the action is reduced. *)
Theorem loaded_keeps_submission
    {File : Type} (createObjectURL : File → string) (now later reload : Z)
    (values : Types.Form.ArtistFormData File) (state current : AppState)
    (data : list Types.Artist) :
  let newArtist := Types.transformFormDataToArtist createObjectURL now values in
  let state' := onSubmit createObjectURL now later values state in
  artists (appReducer reload current (loaded data state'))
  = data ++ temporaryArtists state ++ [newArtist].
Proof.
  simpl. unfold temporaryArtists. simpl. rewrite filter_app_one.
  by rewrite isTemporaryArtist_transform.
Qed.

End PagesFacts.

Section FilterControlFacts.
Import JsString Filters.

(** X22.  Choosing a category when none was chosen narrows the result: the
    new result holds exactly the records of the old result that have the
    category, in their order. *)
Theorem updateFilters_category
    (artists : list Types.Artist) (prev : FilterConfig) (c : string) :
  category prev = "all" →
  c ≠ "all" →
  selection (λ a, c ∈ Types.categories a)
    (filteredArtists artists prev)
    (filteredArtists artists
       (FilterControls.updateFilters
          {| FilterControls.category := Some c;
             FilterControls.location := None;
             FilterControls.price := None |} prev)).
Proof.
  intros Hprev Hc. unfold filteredArtists.
  induction artists as [|a artists IH]; simpl; [constructor|].
  assert (filter_callback
            (FilterControls.updateFilters
               {| FilterControls.category := Some c;
                  FilterControls.location := None;
                  FilterControls.price := None |} prev) a
          = filter_callback prev a
            && Js.Array_includes (Types.categories a) (Js.VString c)) as ->.
  { unfold filter_callback. simpl. rewrite Hprev. simpl.
    apply String.eqb_neq in Hc. rewrite Hc. simpl.
    destruct (Js.Array_includes _ _); simpl;
      by rewrite ?andb_true_r, ?andb_false_r. }
  destruct (filter_callback prev a); simpl; [|done].
  destruct (Js.Array_includes _ _) eqn:Hin.
  - constructor; [by apply Array_includes_spec | done].
  - constructor; [|done]. intros ?%Array_includes_spec. congruence.
Qed.

Lemma updateFilters_category_witness :
  selection (λ a, "dj" ∈ Types.categories a)
    (filteredArtists [Samples.ann; Samples.bob] default_filters)
    (filteredArtists [Samples.ann; Samples.bob]
       (FilterControls.updateFilters
          {| FilterControls.category := Some "dj";
             FilterControls.location := None;
             FilterControls.price := None |} default_filters)).
Proof.
  by apply (updateFilters_category [Samples.ann; Samples.bob] default_filters "dj").
Defined.

End FilterControlFacts.

Section FetchAllFacts.
Import JsString Js GraphQL.

(** X23.  A document with none of the three patterns fetches all records:
    the response has no error and one projection for each record, in the
    order of the record set, whatever the variables hold. *)
Theorem fetch_all_ignores_variables
    (artists : list Types.Artist) (queryString : string)
    (vars : option (gmap string value)) :
  ¬ Substring "artist(" queryString →
  ¬ Substring "artistsByCategory" queryString →
  ¬ Substring "artistsByLocation" queryString →
  graphqlRequest artists {| query := queryString; variables := vars |}
  = {| data := PList (map (λ a, project (parseQuery queryString) (artist_object a))
                        artists);
       errors := None |}.
Proof.
  intros H1%includes_false H2%includes_false H3%includes_false.
  unfold graphqlRequest, try_block. simpl.
  by rewrite resolvers_lookup_operation_of, H1, H2, H3.
Qed.

Lemma fetch_all_ignores_variables_witness :
  graphqlRequest [Samples.ann; Samples.bob]
    {| query := queries.getAllArtists;
       variables := Some {[ "id" := VString "2" ]} |}
  = {| data := PList (map (λ a, project (parseQuery queries.getAllArtists)
                                  (artist_object a))
                        [Samples.ann; Samples.bob]);
       errors := None |}.
Proof.
  apply (fetch_all_ignores_variables [Samples.ann; Samples.bob]
           queries.getAllArtists (Some {[ "id" := VString "2" ]}));
    rewrite <- includes_false; reflexivity.
Defined.

End FetchAllFacts.
